(** * Karaoke pitch core: YIN frame estimator, streaming tracker, offline segmenter

    A shallow embedding of the numerical core of the Karaoke repository
    (yin.ts, smoothing.ts, music.ts, pitchTracker.ts and the two copies of the
    note segmentation in FileMelodyExtractor.tsx and Generator.tsx), with the
    properties the design document states about it, and of the live history
    and the time window of App.tsx.

    JavaScript numbers are IEEE 754 binary64 values.  They are modelled by
    [spec_float] at precision 53 and maximal exponent 1024, the executable
    specification of binary64 arithmetic of the Standard Library; every
    operation below rounds as the hardware does.  [Float32Array] stores are
    rounded to binary32 ([fround]).  Loop counters, lags and array indices are
    integers [Z]: as binary64 numbers they are exact below 2^53, far above
    the length of any buffer; where a configuration takes a counter of [yin]
    past that bound, or asks for a table longer than a typed array can be,
    the outcome of the call is given as the code has it. *)

From Stdlib Require Import ZArith Bool Lia.
From Stdlib Require Import SpecFloat.
From stdpp Require Import base list strings pretty.

Local Open Scope Z_scope.

(** ** Numbers *)

Module Num.

Definition number := spec_float.

Definition prec := 53.
Definition emax := 1024.

Definition NaN : number := S754_nan.
Definition zero : number := S754_zero false.
Definition PInf : number := S754_infinity false.
Definition NInf : number := S754_infinity true.

Definition add : number -> number -> number := SFadd prec emax.
Definition sub : number -> number -> number := SFsub prec emax.
Definition mul : number -> number -> number := SFmul prec emax.
Definition div : number -> number -> number := SFdiv prec emax.

(** [x < y], [x <= y], [x >= y] and [x === y]: false as soon as one side is NaN. *)
Definition lt : number -> number -> bool := SFltb.
Definition le : number -> number -> bool := SFleb.
Definition ge (x y : number) : bool := SFleb y x.
Definition gt (x y : number) : bool := SFltb y x.
Definition eqb : number -> number -> bool := SFeqb.

(** The number holding the integer [z] (exact for |z| < 2^53). *)
Definition of_Z (z : Z) : number := binary_normalize prec emax z 0 false.

Definition is_zero (x : number) : bool :=
  match x with S754_zero _ => true | _ => false end.

Definition is_infinite (x : number) : bool :=
  match x with S754_infinity _ => true | _ => false end.

(** [Number.isFinite] *)
Definition isFinite (x : number) : bool :=
  match x with S754_zero _ | S754_finite _ _ _ => true | _ => false end.

(** Sign bit clear, or NaN. *)
Definition nonneg (x : number) : bool :=
  match x with
  | S754_zero s | S754_infinity s | S754_finite s _ _ => negb s
  | S754_nan => true
  end.

(** [Math.fround]: rounding to binary32, the result held again as a binary64. *)
Definition fround (x : number) : number :=
  match x with
  | S754_finite s m e =>
      match binary_round 24 128 s m e with
      | S754_finite s' m' e' => binary_round prec emax s' m' e'
      | y => y
      end
  | _ => x
  end.

(** [Math.floor] *)
Definition floor (x : number) : number :=
  match x with
  | S754_finite s m e =>
      if 0 <=? e then x
      else of_Z (Z.shiftr (cond_Zopp s (Zpos m)) (- e))
  | _ => x
  end.

(** [Math.round]: the nearest integer, ties towards +infinity; a result of
    zero keeps the sign of the argument. *)
Definition round (x : number) : number :=
  match x with
  | S754_finite s m e =>
      if 0 <=? e then x
      else
        let n := Z.shiftr (2 * cond_Zopp s (Zpos m) + Z.shiftl 1 (- e)) (- e + 1) in
        if n =? 0 then S754_zero s else of_Z n
  | _ => x
  end.

(** [Math.abs] *)
Definition abs : number -> number := SFabs.

(** What an integer-valued number is as a loop bound or an index. *)
Inductive integral :=
  | INaN
  | IInf (negative : bool)
  | IInt (z : Z).

Definition to_integral (x : number) : integral :=
  match x with
  | S754_nan => INaN
  | S754_infinity s => IInf s
  | S754_zero _ => IInt 0
  | S754_finite s m e =>
      IInt (if 0 <=? e then cond_Zopp s (Zpos m) * 2 ^ e
            else Z.quot (cond_Zopp s (Zpos m)) (2 ^ (- e)))
  end.

(** Decimal literal [n / d], correctly rounded. *)
Definition ratio (n d : Z) : number := div (of_Z n) (of_Z d).

End Num.

Import Num.

(** ** Typed arrays *)

(** A [Float32Array]: a fixed-length sequence of numbers.  A store rounds to
    binary32 and is ignored outside the array; a load outside the array gives
    [undefined], which every use in this program turns into NaN (it is
    subtracted, multiplied or compared). *)
Module F32.

Definition t := list number.

Definition make (len : Z) : t := replicate (Z.to_nat len) zero.

Definition length (a : t) : Z := Z.of_nat (List.length a).

Definition get (a : t) (i : Z) : number :=
  if i <? 0 then NaN else default NaN ((a : list number) !! Z.to_nat i).

Definition set (a : t) (i : Z) (v : number) : t :=
  if i <? 0 then a else <[Z.to_nat i := fround v]> (a : list number).

(** [a.subarray(lo, hi)] for [0 <= lo <= hi]. *)
Definition subarray (a : t) (lo hi : Z) : t :=
  take (Z.to_nat (hi - lo)) (drop (Z.to_nat lo) a).

End F32.

(** ** Outcomes of a call *)

Inductive outcome (A : Type) :=
  | Returns (a : A)
  | Throws          (* RangeError: invalid typed array length *)
  | Diverges.       (* the call never returns *)
Arguments Returns {A} a.
Arguments Throws {A}.
Arguments Diverges {A}.

(** The outcome of passing a result on. *)
Definition outcome_map {A B : Type} (f : A -> B) (o : outcome A) : outcome B :=
  match o with
  | Returns a => Returns (f a)
  | Throws => Throws
  | Diverges => Diverges
  end.

(** [for (let tau = lo; tau <= hi; tau++) s = body(tau, s)] *)
Fixpoint for_loop {S : Type} (n : nat) (tau : Z) (body : Z -> S -> S) (s : S) : S :=
  match n with
  | O => s
  | S n' => for_loop n' (tau + 1) body (body tau s)
  end.

Definition for_range {S : Type} (lo hi : Z) (body : Z -> S -> S) (s : S) : S :=
  for_loop (Z.to_nat (hi - lo + 1)) lo body s.

(** ** yin.ts: the frame estimator *)

Module Yin.

Record YinConfig := {
  threshold : number;
  probabilityThreshold : number;
  sampleRate : number;
  minFreq : option number;
  maxFreq : option number
}.

Record YinResult := {
  freqHz : option number;
  probability : number
}.

Definition one : number := of_Z 1.
Definition two : number := of_Z 2.

(** The configurations the design document admits: threshold in (0,1),
    probabilityThreshold in [0,1], sampleRate > 0, minFreq > 0 and
    maxFreq > minFreq. *)
Definition valid_config (cfg : YinConfig) : bool :=
  lt zero (threshold cfg) && lt (threshold cfg) one &&
  le zero (probabilityThreshold cfg) && le (probabilityThreshold cfg) one &&
  lt zero (sampleRate cfg) &&
  lt zero (default (of_Z 50) (minFreq cfg)) &&
  lt (default (of_Z 50) (minFreq cfg)) (default (of_Z 1200) (maxFreq cfg)).

(** A frame of silence: every sample is zero. *)
Definition silent (frame : F32.t) : Prop :=
  Forall (fun x => is_zero x = true) frame.

(** Step 1: the lag bounds, as numbers. *)
Definition minLag (cfg : YinConfig) : number :=
  floor (div (sampleRate cfg) (default (of_Z 1200) (maxFreq cfg))).

Definition maxLag (cfg : YinConfig) : number :=
  floor (div (sampleRate cfg) (default (of_Z 50) (minFreq cfg))).

(** [N = Math.min(frame.length, maxLag * 2)] *)
Definition frame_span (frame : F32.t) (maxLag : Z) : Z :=
  Z.min (F32.length frame) (maxLag * 2).

(** Step 3, inner loop: [for (i = 0; i + tau < N; i++) sum += d * d]. *)
Fixpoint diff_sum (frame : F32.t) (tau : Z) (n : nat) (i : Z) (sum : number) : number :=
  match n with
  | O => sum
  | S n' =>
      let d := sub (F32.get frame i) (F32.get frame (i + tau)) in
      diff_sum frame tau n' (i + 1) (add sum (mul d d))
  end.

Definition difference (frame : F32.t) (N tau : Z) : number :=
  diff_sum frame tau (Z.to_nat (N - tau)) 0 zero.

(** Step 3: the table [diff]. *)
Definition diff_table (frame : F32.t) (minLag maxLag : Z) : F32.t :=
  let N := frame_span frame maxLag in
  for_range minLag maxLag
    (fun tau diff => F32.set diff tau (difference frame N tau))
    (F32.make (maxLag + 1)).

(** Step 4: one turn of the normalisation loop on [(runningSum, cmnd)]. *)
Definition cmnd_step (diff : F32.t) (tau : Z) (st : number * F32.t) : number * F32.t :=
  let runningSum := add (fst st) (F32.get diff tau) in
  (runningSum,
   F32.set (snd st) tau (div (mul (F32.get diff tau) (of_Z tau)) runningSum)).

Definition cmnd_init (maxLag : Z) : number * F32.t :=
  (zero, F32.set (F32.make (maxLag + 1)) 0 one).

(** The loop of step 4 run up to lag [upto]. *)
Definition cmnd_loop (diff : F32.t) (maxLag upto : Z) : number * F32.t :=
  for_range 1 upto (cmnd_step diff) (cmnd_init maxLag).

Definition cmnd_table (frame : F32.t) (minLag maxLag : Z) : F32.t :=
  snd (cmnd_loop (diff_table frame minLag maxLag) maxLag maxLag).

(** The value of [runningSum] once the turn for lag [tau] has run. *)
Definition running_sum (frame : F32.t) (minLag maxLag tau : Z) : number :=
  fst (cmnd_loop (diff_table frame minLag maxLag) maxLag tau).

(** Step 5: the first lag below the threshold, [-1] if there is none. *)
Fixpoint search (cmnd : F32.t) (threshold : number) (n : nat) (t : Z) : Z :=
  match n with
  | O => -1
  | S n' =>
      if lt (F32.get cmnd t) threshold then t
      else search cmnd threshold n' (t + 1)
  end.

Definition first_below (cmnd : F32.t) (threshold : number) (minLag maxLag : Z) : Z :=
  search cmnd threshold (Z.to_nat (maxLag - minLag + 1)) minLag.

(** Step 7: parabolic interpolation around [tau]. *)
Definition betterTau (cmnd : F32.t) (minLag maxLag tau : Z) : number :=
  if (tau + 1 <=? maxLag) && (minLag <=? tau - 1) then
    let s0 := F32.get cmnd (tau - 1) in
    let s1 := F32.get cmnd tau in
    let s2 := F32.get cmnd (tau + 1) in
    let denom := sub (sub (mul two s1) s2) s0 in
    if negb (eqb denom zero) then
      add (of_Z tau) (div (sub s2 s0) (mul two denom))
    else of_Z tau
  else of_Z tau.

Definition unvoiced : YinResult := {| freqHz := None; probability := zero |}.

(** Steps 2 to 11 once both lag bounds are integers and the tables are
    allocated. *)
Definition yin_lags (frame : F32.t) (cfg : YinConfig) (minLag maxLag : Z) : YinResult :=
  let cmnd := cmnd_table frame minLag maxLag in
  let tau := first_below cmnd (threshold cfg) minLag maxLag in
  if tau =? -1 then unvoiced
  else
    let freq := div (sampleRate cfg) (betterTau cmnd minLag maxLag tau) in
    let probability := sub one (F32.get cmnd tau) in
    if lt probability (probabilityThreshold cfg) then
      {| freqHz := None; probability := probability |}
    else
      {| freqHz := Some freq; probability := probability |}.

(** The largest length of a typed array: [new Float32Array(len)] throws a
    RangeError when [len] is above 2^53 - 1. *)
Definition MAX_LENGTH : Z := 2 ^ 53 - 1.

(** Whether the inner loop of step 3 stalls at the first lag.  The counter
    [i] is a binary64 number: it counts exactly up to 2^53 and stays there,
    as 2^53 + 1 rounds to 2^53.  The loop [for (i = 0; i + tau < N; i++)]
    then never ends when [2^53 + tau < N] still holds; a frame holds fewer
    than 2^53 samples, so this happens for a negative lag only.  The lags
    from [minLag] on are checked in order, and the first one is the furthest
    below zero. *)
Definition stalls (minLag maxLag N : Z) : bool :=
  (minLag <=? maxLag) && (minLag <? 0) && (minLag + 2 ^ 53 <? N).

(** [yin(frame, cfg)].  The two tables have length [maxLag + 1]: the
    allocation throws when that is negative, infinite or above [MAX_LENGTH],
    and gives empty tables when it is NaN; within the bound of the language
    it is taken to succeed (an engine refuses a length it has no memory for
    with the same RangeError).  A loop
    [for (tau = minLag; tau <= maxLag; tau++)] does not run when a bound is
    NaN or [minLag] is +Infinity; from [minLag = -Infinity], and from a
    [minLag] so far below zero that the counter of the inner loop stalls,
    step 3 never ends.  In every other case the counters are integers below
    2^53 in magnitude, on which [++] and [i + tau] are exact. *)
Definition yin (frame : F32.t) (cfg : YinConfig) : outcome YinResult :=
  match to_integral (maxLag cfg) with
  | IInf _ => Throws
  | INaN => Returns unvoiced
  | IInt M =>
      if (M + 1 <? 0) || (MAX_LENGTH <? M + 1) then Throws
      else
        match to_integral (minLag cfg) with
        | INaN | IInf false => Returns unvoiced
        | IInf true => Diverges
        | IInt m =>
            if stalls m M (frame_span frame M) then Diverges
            else Returns (yin_lags frame cfg m M)
        end
  end.

End Yin.

(** ** smoothing.ts *)

Module Smoothing.

(** [arr.slice(start, end)] on an ordinary array. *)
Definition slice {A : Type} (arr : list A) (start end_ : Z) : list A :=
  let len := Z.of_nat (length arr) in
  let k := if start <? 0 then Z.max (len + start) 0 else Z.min start len in
  let final := if end_ <? 0 then Z.max (len + end_) 0 else Z.min end_ len in
  take (Z.to_nat (final - k)) (drop (Z.to_nat k) arr).

(** [slice.sort((a, b) => a - b)]: the sort is stable, so on the finite
    numbers it is given it is insertion after the elements that do not
    compare above the new one. *)
Fixpoint insert_sorted (x : number) (l : list number) : list number :=
  match l with
  | [] => [x]
  | y :: l' => if lt (sub x y) zero then x :: l else y :: insert_sorted x l'
  end.

Definition sort_numbers (l : list number) : list number :=
  foldl (fun acc x => insert_sorted x acc) [] l.

Definition median_at (arr : list number) (hw i : Z) : number :=
  let start := Z.max 0 (i - hw) in
  let end_ := Z.min (Z.of_nat (length arr)) (i + hw + 1) in
  let slice := filter (fun v => isFinite v = true) (slice arr start end_) in
  match slice with
  | [] => NaN
  | _ => default NaN (sort_numbers slice !! Z.to_nat (Z.of_nat (length slice) / 2))
  end.

Definition medianFilter (arr : list number) (win : Z) : list number :=
  let w := if Z.rem win 2 =? 1 then win else win + 1 in
  let hw := w / 2 in
  map (fun i => median_at arr hw (Z.of_nat i)) (seq 0 (length arr)).

(** [ema(prev, next, alpha)] *)
Definition ema (prev : option number) (next alpha : number) : number :=
  match prev with
  | None => next
  | Some p =>
      if negb (isFinite p) then next
      else add (mul p (sub Yin.one alpha)) (mul next alpha)
  end.

End Smoothing.

(** ** pitchTracker.ts *)

Module Tracker.

Import Yin Smoothing.

Record PitchPoint := {
  tSec : number;
  freq : option number;
  prob : number
}.

(** [Partial<YinConfig>] *)
Record PartialConfig := {
  cfg_threshold : option number;
  cfg_probabilityThreshold : option number;
  cfg_minFreq : option number;
  cfg_maxFreq : option number
}.

(** The fields of a [PitchTracker] that change, with its configuration. *)
Record PitchTracker := {
  rafId : option Z;
  startedAt : number;
  lastEma : option number;
  startOffset : number;
  cfg : PartialConfig
}.

(** The tracker in its surroundings: the audio context's sample rate, the
    animation-frame callbacks that are pending (each one is a [loop] closure
    of this tracker, known by its handle, in the order of registration), the
    next handle [requestAnimationFrame] hands out, and the points passed to
    [onData] so far.  [onData] is taken to receive the point and do nothing
    to the tracker. *)
Record World := {
  tracker : PitchTracker;
  acSampleRate : number;
  callbacks : list Z;
  nextHandle : Z;
  emitted : list PitchPoint
}.

(** [new PitchTracker(ac, stream, onData, cfg)] *)
Definition construct (sr : number) (c : PartialConfig) : World :=
  {| tracker := {| rafId := None; startedAt := zero; lastEma := None;
                   startOffset := zero; cfg := c |};
     acSampleRate := sr;
     callbacks := [];
     nextHandle := 1;
     emitted := [] |}.

Definition c0_12 : number := Eval vm_compute in ratio 12 100.
Definition c0_1 : number := Eval vm_compute in ratio 1 10.
Definition c0_25 : number := Eval vm_compute in ratio 1 4.

(** The configuration a tick passes to [yin]. *)
Definition yin_config (t : PitchTracker) (sr : number) : YinConfig :=
  {| threshold := default c0_12 (cfg_threshold (cfg t));
     probabilityThreshold := default c0_1 (cfg_probabilityThreshold (cfg t));
     sampleRate := sr;
     minFreq := Some (default (of_Z 50) (cfg_minFreq (cfg t)));
     maxFreq := Some (default (of_Z 1200) (cfg_maxFreq (cfg t))) |}.

(** [requestAnimationFrame(loop)] *)
Definition requestAnimationFrame (w : World) : Z * World :=
  (nextHandle w,
   {| tracker := tracker w; acSampleRate := acSampleRate w;
      callbacks := callbacks w ++ [nextHandle w];
      nextHandle := nextHandle w + 1;
      emitted := emitted w |}).

(** [cancelAnimationFrame(id)] *)
Definition cancelAnimationFrame (id : Z) (w : World) : World :=
  {| tracker := tracker w; acSampleRate := acSampleRate w;
     callbacks := filter (fun h => h <> id) (callbacks w);
     nextHandle := nextHandle w;
     emitted := emitted w |}.

Definition set_tracker (t : PitchTracker) (w : World) : World :=
  {| tracker := t; acSampleRate := acSampleRate w; callbacks := callbacks w;
     nextHandle := nextHandle w; emitted := emitted w |}.

(** [start(startOffset)] at audio-context time [now]. *)
Definition start (offset now : number) (w : World) : World :=
  let t := tracker w in
  let t1 := {| rafId := rafId t; startedAt := sub now offset;
               lastEma := lastEma t; startOffset := offset; cfg := cfg t |} in
  let '(h, w1) := requestAnimationFrame (set_tracker t1 w) in
  set_tracker {| rafId := Some h; startedAt := startedAt t1;
                 lastEma := lastEma t1; startOffset := startOffset t1;
                 cfg := cfg t1 |} w1.

(** [stop()] *)
Definition stop (w : World) : World :=
  let t := tracker w in
  let w1 := match rafId t with
            | Some h => cancelAnimationFrame h w
            | None => w
            end in
  set_tracker {| rafId := None; startedAt := startedAt t; lastEma := lastEma t;
                 startOffset := startOffset t; cfg := cfg t |} w1.

(** The body of [loop] up to the call of [onData]: the new tracker fields and
    the point, from the analyser's samples [data] at time [now]. *)
Definition tick (t : PitchTracker) (sr : number) (data : F32.t) (now : number)
  : outcome (PitchTracker * PitchPoint) :=
  match yin data (yin_config t sr) with
  | Throws => Throws
  | Diverges => Diverges
  | Returns res =>
      let smoothed :=
        match freqHz res with
        | None => None
        | Some f => Some (ema (lastEma t) f c0_25)
        end in
      let lastEma' := match smoothed with Some s => Some s | None => lastEma t end in
      let tSec := sub now (startedAt t) in
      Returns
        ({| rafId := rafId t; startedAt := startedAt t; lastEma := lastEma';
            startOffset := startOffset t; cfg := cfg t |},
         {| tSec := tSec;
            freq := match smoothed with Some s => Some s | None => freqHz res end;
            prob := probability res |})
  end.

(** One run of a pending [loop] callback.  When [yin] throws, the callback
    ends there: nothing is passed to [onData] and nothing is scheduled. *)
Definition run_callback (data : F32.t) (now : number) (w : World) : outcome World :=
  match tick (tracker w) (acSampleRate w) data now with
  | Diverges => Diverges
  | Throws => Returns w
  | Returns (t', p) =>
      let w1 := {| tracker := t'; acSampleRate := acSampleRate w;
                   callbacks := callbacks w; nextHandle := nextHandle w;
                   emitted := emitted w ++ [p] |} in
      let '(h, w2) := requestAnimationFrame w1 in
      Returns (set_tracker {| rafId := Some h; startedAt := startedAt t';
                              lastEma := lastEma t'; startOffset := startOffset t';
                              cfg := cfg t' |} w2)
  end.

(** An animation frame: the callbacks pending when it begins are taken off
    the list and run in order; what they schedule waits for the next frame. *)
Fixpoint run_callbacks (pending : list Z) (data : F32.t) (now : number) (w : World)
  : outcome World :=
  match pending with
  | [] => Returns w
  | _ :: rest =>
      match run_callback data now w with
      | Returns w' => run_callbacks rest data now w'
      | other => other
      end
  end.

Definition animation_frame (data : F32.t) (now : number) (w : World) : outcome World :=
  run_callbacks (callbacks w) data now
    {| tracker := tracker w; acSampleRate := acSampleRate w; callbacks := [];
       nextHandle := nextHandle w; emitted := emitted w |}.

(** What happens to a tracker: calls of its two methods and animation frames. *)
Inductive event :=
  | Start (offset now : number)
  | Stop
  | Frame (data : F32.t) (now : number).

Definition step (w : World) (e : event) : outcome World :=
  match e with
  | Start offset now => Returns (start offset now w)
  | Stop => Returns (stop w)
  | Frame data now => animation_frame data now w
  end.

Fixpoint run (es : list event) (w : World) : outcome World :=
  match es with
  | [] => Returns w
  | e :: es' =>
      match step w e with
      | Returns w' => run es' w'
      | other => other
      end
  end.



End Tracker.

(** ** The offline segmentation: FileMelodyExtractor.tsx and Generator.tsx *)

Module Segment.

Import Yin Smoothing.

(** A note as both components build it.  [id] is the value of
    [crypto.randomUUID()]. *)
Record Note (Id : Type) := {
  id : Id;
  start : number;
  duration : number;
  midi : number
}.
Arguments id {Id} _.
Arguments start {Id} _.
Arguments duration {Id} _.
Arguments midi {Id} _.

(** A note without its identifier. *)
Definition fields {Id : Type} (n : Note Id) : number * number * number :=
  (start n, duration n, midi n).

Definition FRAME_SIZE : Z := 2048.
Definition HOP_SIZE : Z := 512.

Definition c0_08 : number := Eval vm_compute in ratio 8 100.

(** The configuration both components pass to [yin]. *)
Definition file_config (sr : number) : YinConfig :=
  {| threshold := Tracker.c0_12;
     probabilityThreshold := Tracker.c0_1;
     sampleRate := sr;
     minFreq := Some (of_Z 50);
     maxFreq := Some (of_Z 1200) |}.

(** [for (let i = 0; i + FRAME_SIZE < ch0.length; i += HOP_SIZE)]: the F0 of
    each window.  [fuel] bounds the number of turns; the length of the buffer
    is enough, as [i] grows by 512 each turn. *)
Fixpoint f0_loop (fuel : nat) (ch0 : F32.t) (sr : number) (i : Z)
  : outcome (list (option number)) :=
  match fuel with
  | O => Returns []
  | S fuel' =>
      if i + FRAME_SIZE <? F32.length ch0 then
        match yin (F32.subarray ch0 i (i + FRAME_SIZE)) (file_config sr) with
        | Returns res =>
            match f0_loop fuel' ch0 sr (i + HOP_SIZE) with
            | Returns f0 => Returns (freqHz res :: f0)
            | other => other
            end
        | Throws => Throws
        | Diverges => Diverges
        end
      else Returns []
  end.

Definition f0_track (ch0 : F32.t) (sr : number) : outcome (list (option number)) :=
  f0_loop (length ch0) ch0 sr 0.

(** [medianFilter(f0.map(v => v ?? NaN), 7)] *)
Definition f0_median (f0 : list (option number)) : list number :=
  medianFilter (map (fun v => default NaN v) f0) 7.

Section Segmentation.

(** [Math.log2] is an approximation the engine chooses, and the identifiers
    are random: both are taken as given.  [randomUUID k] is the identifier of
    the note pushed when [k] notes are in the list. *)
Context {Id : Type}.
Variable log2 : number -> number.
Variable randomUUID : nat -> Id.

Definition c69 : number := of_Z 69.
Definition c12 : number := of_Z 12.
Definition c440 : number := of_Z 440.

Definition push (notes : list (Note Id)) (s d m : number) : list (Note Id) :=
  notes ++ [ {| id := randomUUID (length notes); start := s; duration := d; midi := m |} ].

(** [if (dur >= 0.08) notes.push(...)] *)
Definition close_note (notes : list (Note Id)) (curStart dur curMidi : number)
  : list (Note Id) :=
  if ge dur c0_08 then push notes curStart dur curMidi else notes.

(** *** FileMelodyExtractor.tsx *)

Definition hzToMidiNumber (hz : number) : option number :=
  if negb (isFinite hz) then None
  else Some (add c69 (mul c12 (log2 (div hz c440)))).

(** The state of the loop of step 6: [notes], [curStart], [curMidi]. *)
Definition seg_state : Type := list (Note Id) * number * option number.

Definition extractor_step (frameDur : number) (i : Z) (hz : number) (st : seg_state)
  : seg_state :=
  let '(notes, curStart, curMidi) := st in
  let m := hzToMidiNumber hz in
  let q := match m with None => None | Some m => Some (round m) end in
  match q with
  | None =>
      match curMidi with
      | Some cm =>
          let dur := sub (mul (of_Z i) frameDur) curStart in
          (close_note notes curStart dur cm, curStart, None)
      | None => st
      end
  | Some q =>
      match curMidi with
      | None => (notes, mul (of_Z i) frameDur, Some q)
      | Some cm =>
          if gt (abs (sub q cm)) zero then
            let dur := sub (mul (of_Z i) frameDur) curStart in
            (close_note notes curStart dur cm, mul (of_Z i) frameDur, Some q)
          else st
      end
  end.

Fixpoint extractor_loop (frameDur : number) (f0Med : list number) (i : Z) (st : seg_state)
  : seg_state :=
  match f0Med with
  | [] => st
  | hz :: rest => extractor_loop frameDur rest (i + 1) (extractor_step frameDur i hz st)
  end.

Definition extractor_segment (sr : number) (f0Med : list number) : list (Note Id) :=
  let frameDur := div (of_Z HOP_SIZE) sr in
  let '(notes, curStart, curMidi) := extractor_loop frameDur f0Med 0 ([], zero, None) in
  match curMidi with
  | Some cm =>
      let dur := sub (mul (of_Z (Z.of_nat (length f0Med))) frameDur) curStart in
      close_note notes curStart dur cm
  | None => notes
  end.

(** The notes [handleFile] passes to [onNotes] for the decoded channel
    [ch0] at sample rate [sr]. *)
Definition handleFile (ch0 : F32.t) (sr : number) : outcome (list (Note Id)) :=
  match f0_track ch0 sr with
  | Returns f0 => Returns (extractor_segment sr (f0_median f0))
  | Throws => Throws
  | Diverges => Diverges
  end.

(** *** Generator.tsx *)

Definition generator_step (frameDur : number) (i : Z) (v : number) (st : seg_state)
  : seg_state :=
  let '(outNotes, curStart, curMidi) := st in
  let hz := if isFinite v then Some v else None in
  let midi := match hz with
              | None => None
              | Some hz => Some (add c69 (mul c12 (log2 (div hz c440))))
              end in
  let q := match midi with None => None | Some midi => Some (round midi) end in
  match q with
  | None =>
      match curMidi with
      | Some cm =>
          let dur := sub (mul (of_Z i) frameDur) curStart in
          (close_note outNotes curStart dur cm, of_Z (-1), None)
      | None => st
      end
  | Some q =>
      match curMidi with
      | None => (outNotes, mul (of_Z i) frameDur, Some q)
      | Some cm =>
          if gt (abs (sub q cm)) zero then
            let dur := sub (mul (of_Z i) frameDur) curStart in
            (close_note outNotes curStart dur cm, mul (of_Z i) frameDur, Some q)
          else st
      end
  end.

Fixpoint generator_loop (frameDur : number) (f0Med : list number) (i : Z) (st : seg_state)
  : seg_state :=
  match f0Med with
  | [] => st
  | v :: rest => generator_loop frameDur rest (i + 1) (generator_step frameDur i v st)
  end.

Definition generator_segment (sr : number) (f0Med : list number) : list (Note Id) :=
  let frameDur := div (of_Z HOP_SIZE) sr in
  let '(outNotes, curStart, curMidi) :=
    generator_loop frameDur f0Med 0 ([], of_Z (-1), None) in
  match curMidi with
  | Some cm =>
      let dur := sub (mul (of_Z (Z.of_nat (length f0Med))) frameDur) curStart in
      close_note outNotes curStart dur cm
  | None => outNotes
  end.

(** The notes [analyzePart] passes to [setNotes]. *)
Definition analyzePart (ch0 : F32.t) (sr : number) : outcome (list (Note Id)) :=
  match f0_track ch0 sr with
  | Returns f0 => Returns (generator_segment sr (f0_median f0))
  | Throws => Throws
  | Diverges => Diverges
  end.

End Segmentation.

(** A note of at least 0.08 s: [duration >= 0.08]. *)
Definition long_enough {Id : Type} (n : Note Id) : Prop :=
  ge (duration n) c0_08 = true.

(** A note that runs from frame [a] to frame [b]: it starts at the time of
    frame [a] and lasts until the time of frame [b], frame [i] being at
    [i * frameDur]. *)
Definition spans {Id : Type} (frameDur : number) (n : Note Id) (ab : Z * Z) : Prop :=
  start n = mul (of_Z (fst ab)) frameDur /\
  duration n = sub (mul (of_Z (snd ab)) frameDur) (start n).

(** Frame ranges that follow one another from frame [lo] on, none empty and
    none reaching past frame [hi]. *)
Fixpoint sequential (lo hi : Z) (l : list (Z * Z)) : Prop :=
  match l with
  | [] => lo <= hi
  | (a, b) :: l' => lo <= a /\ a < b /\ sequential b hi l'
  end.

End Segment.

(** ** Concrete frames and configurations *)

Module Examples.

Import Yin.

(** The frame whose samples are [z / d] for the [z] of [zs]. *)
Definition frame_of (zs : list Z) (d : Z) : F32.t := map (fun z => ratio z d) zs.

(** Lags 2 to 8: two periods of the lowest frequency fit in 16 samples. *)
Definition cfg_small : YinConfig :=
  {| threshold := ratio 15 100; probabilityThreshold := ratio 1 10;
     sampleRate := of_Z 8; minFreq := Some (of_Z 1); maxFreq := Some (of_Z 4) |}.

(** As [cfg_small], with a permissive threshold. *)
Definition cfg_loose : YinConfig :=
  {| threshold := ratio 9 10; probabilityThreshold := ratio 1 10;
     sampleRate := of_Z 8; minFreq := Some (of_Z 1); maxFreq := Some (of_Z 4) |}.

(** As [cfg_small], with a strict probability gate. *)
Definition cfg_strict : YinConfig :=
  {| threshold := ratio 15 100; probabilityThreshold := ratio 9 10;
     sampleRate := of_Z 8; minFreq := Some (of_Z 1); maxFreq := Some (of_Z 4) |}.

(** The defaults of the tracker at sample rate 0. *)
Definition cfg_rate0 : YinConfig :=
  {| threshold := ratio 12 100; probabilityThreshold := ratio 1 10;
     sampleRate := zero; minFreq := Some (of_Z 50); maxFreq := Some (of_Z 1200) |}.

(** [minFreq = maxFreq]. *)
Definition cfg_flat : YinConfig :=
  {| threshold := ratio 12 100; probabilityThreshold := ratio 1 10;
     sampleRate := of_Z 8; minFreq := Some (of_Z 2); maxFreq := Some (of_Z 2) |}.

(** A valid configuration whose [minFreq] is the smallest positive number,
    5e-324: [sampleRate / minFreq] overflows to +Infinity. *)
Definition cfg_tiny : YinConfig :=
  {| threshold := ratio 15 100; probabilityThreshold := ratio 1 10;
     sampleRate := of_Z 8; minFreq := Some (S754_finite false 1 (-1074));
     maxFreq := Some (of_Z 4) |}.

(** A valid configuration with a finite largest lag of 10^17, above
    [MAX_LENGTH]. *)
Definition cfg_huge : YinConfig :=
  {| threshold := ratio 15 100; probabilityThreshold := ratio 1 10;
     sampleRate := of_Z (10 ^ 17); minFreq := Some (of_Z 1);
     maxFreq := Some (of_Z 4) |}.

(** Sixteen samples of silence, and sixteen samples at 0.5. *)
Definition silence16 : F32.t := replicate 16 zero.
Definition constant16 : F32.t := replicate 16 (ratio 1 2).

(** Sixteen samples of a sine of period 5.5 samples, in 64ths:
    [round (64 * sin (2 * pi * i / 5.5)) / 64]. *)
Definition frame_sine : F32.t :=
  frame_of [0; 58; 48; -18; -63; -35; 35; 63; 18; -48; -58; 0; 58; 48; -18; -63] 64.

(** A tracker built without options. *)
Definition no_options : Tracker.PartialConfig :=
  {| Tracker.cfg_threshold := None; Tracker.cfg_probabilityThreshold := None;
     Tracker.cfg_minFreq := None; Tracker.cfg_maxFreq := None |}.

(** Samples of period 2 and an audio context at 100 Hz: lags 0 to 2. *)
Definition square4 : F32.t := frame_of [1; 0; 1; 0] 1.
Definition rate100 : number := of_Z 100.

(** A channel of 3073 samples of period 2: three windows. *)
Definition square_channel : F32.t :=
  map (fun i => of_Z (Z.of_nat i mod 2)) (seq 0 3073).

Definition rate200 : number := of_Z 200.

(** A channel of 9217 samples, fifteen windows: 3584 samples of silence,
    2048 samples of period 2, then samples of period 4. *)
Definition two_tone_channel : F32.t :=
  map (fun i : nat =>
         if Z.of_nat i <? 3584 then zero
         else if Z.of_nat i <? 5632 then of_Z (1 - Z.of_nat i mod 2)
         else of_Z (1 - Z.of_nat i / 2 mod 2))
      (seq 0 (Z.to_nat 9217)).

(** What [yin] hears at sample rate 200 in eight samples of period 2 and of
    period 4: 102.857... Hz and 50 Hz. *)
Definition tone_of (frame : F32.t) : number :=
  match yin frame (Segment.file_config rate200) with
  | Returns r => default NaN (freqHz r)
  | _ => NaN
  end.

Definition tone1_hz : number :=
  Eval vm_compute in tone_of (frame_of [1; 0; 1; 0; 1; 0; 1; 0] 1).
Definition tone2_hz : number :=
  Eval vm_compute in tone_of (frame_of [1; 1; 0; 0; 1; 1; 0; 0] 1).

(** The filtered track of [two_tone_channel]. *)
Definition two_tone_f0Med : list number :=
  replicate 4 NaN ++ replicate 7 tone1_hz ++ replicate 4 tone2_hz.

(** A coarse [Math.log2]: the integer part of the logarithm, exact on the
    powers of two. *)
Definition log2_floor (x : number) : number :=
  match x with
  | S754_nan => NaN
  | S754_zero _ => NInf
  | S754_infinity s => if s then NaN else PInf
  | S754_finite s m e => if s then NaN else of_Z (Zpos (digits2_pos m) + e - 1)
  end.

End Examples.

(** ** Invariants *)

(** The predicates the proofs below carry through the loops. *)
Module Inv.

Import Yin Tracker Segment.

(** Rounding returns the sign it was given. *)
Definition signed (s : bool) (x : number) : Prop :=
  match x with
  | S754_zero s' | S754_infinity s' | S754_finite s' _ _ => s' = s
  | S754_nan => True
  end.

(** A finite number whose exponent is at [emin] or above, as every rounded
    result is. *)
Definition above_emin (prec emax : Z) (x : number) : Prop :=
  match x with
  | S754_finite _ _ e => SpecFloat.emin prec emax <= e
  | _ => True
  end.

Definition wf (x : number) : Prop := above_emin Num.prec Num.emax x.

(** A sum of squares: its sign bit is clear and it is a rounded number. *)
Definition sum_like (x : number) : Prop := nonneg x = true /\ wf x.

Definition zero_or_nan (x : number) : Prop := is_zero x = true \/ x = NaN.


(** As long as only unvoiced points were passed on, no estimate has been
    smoothed. *)
Definition ema_unset (w : World) : Prop :=
  lastEma (tracker w) = None \/ Exists (fun p => freq p <> None) (emitted w).

(** The states of the two segmentation loops agree: the same notes up to
    identifiers, the same open pitch, and the same start time while a note is
    open. *)
Definition seg_related {Id1 Id2 : Type}
    (st1 : @seg_state Id1) (st2 : @seg_state Id2) : Prop :=
  let '(notes1, curStart1, curMidi1) := st1 in
  let '(notes2, curStart2, curMidi2) := st2 in
  map fields notes1 = map fields notes2 /\
  curMidi1 = curMidi2 /\
  (curMidi1 <> None -> curStart1 = curStart2).

(** What a segmentation loop has built when it reaches frame [i]: notes of at
    least 0.08 s on frame ranges that follow one another, the last one closed
    before the open note began. *)
Definition notes_ok {Id : Type} (frameDur : number) (i : Z) (st : @seg_state Id) : Prop :=
  let '(notes, curStart, curMidi) := st in
  Forall long_enough notes /\
  exists sp, Forall2 (spans frameDur) notes sp /\
    match curMidi with
    | None => sequential 0 i sp
    | Some _ => exists a, 0 <= a < i /\ curStart = mul (of_Z a) frameDur /\
                          sequential 0 a sp
    end.

End Inv.

(** ** More of the code *)

(** *** smoothing.ts: the window of the median filter *)

Module MedianWindow.

(** The half width [hw] that [medianFilter(arr, win)] works with. *)
Definition half_width (win : Z) : Z :=
  (if Z.rem win 2 =? 1 then win else win + 1) / 2.

End MedianWindow.

(** *** pitchTracker.ts: histories *)

Module TrackerRuns.

Import Yin Tracker Examples.

(** The animation frames of a history: each one with the samples the
    analyser holds and the time of the audio context. *)
Definition frames (fs : list (F32.t * number)) : list event :=
  map (fun f => Frame (fst f) (snd f)) fs.

(** A point without a frequency. *)
Definition unvoiced_point (p : PitchPoint) : Prop := freq p = None.

(** What a step leaves alone, and what it appends: the options and the
    sample rate stay, points are added, and the smoothing state stays as long
    as the added points are unvoiced. *)
Definition extends (w w' : World) : Prop :=
  cfg (tracker w') = cfg (tracker w) /\
  acSampleRate w' = acSampleRate w /\
  exists new,
    emitted w' = emitted w ++ new /\
    (Forall unvoiced_point new -> lastEma (tracker w') = lastEma (tracker w)).

(** The frequency of the last voiced point of a history, if any. *)
Definition last_voiced (pts : list PitchPoint) : option number :=
  foldl (fun acc p => match freq p with Some f => Some f | None => acc end) None pts.

(** Options with [minFreq: 0]. *)
Definition min_freq_zero : PartialConfig :=
  {| cfg_threshold := None; cfg_probabilityThreshold := None;
     cfg_minFreq := Some zero; cfg_maxFreq := None |}.

(** A tracker that has heard one voiced frame. *)
Definition heard : World :=
  Eval vm_compute in
    match run [Start zero zero; Frame square4 (of_Z 1)] (construct rate100 no_options) with
    | Returns w => w
    | _ => construct rate100 no_options
    end.

End TrackerRuns.

(** *** The segmentation: notes as runs of frames *)

Module Runs.

Import Segment.

Section Runs.

Variable log2 : number -> number.

(** [q] is the semitone frame value [hz] is quantised to: the frame is
    voiced and [q = Math.round(hzToMidiNumber(hz))]. *)
Definition quantised (hz q : number) : Prop :=
  exists m, hzToMidiNumber log2 hz = Some m /\ q = round m.

(** The test [Math.abs(q - curMidi) > 0] fails: frame value [q] continues
    the note of pitch [curMidi]. *)
Definition same_pitch (q curMidi : number) : Prop :=
  gt (abs (sub q curMidi)) zero = false.

(** Frames [a] to [b - 1] of the track are a run of pitch [cm]: frame [a]
    is quantised to [cm], and every frame of the range is voiced and
    continues [cm]. *)
Definition run_of (f0Med : list number) (a b : Z) (cm : number) : Prop :=
  (exists hz, f0Med !! Z.to_nat a = Some hz /\ quantised hz cm) /\
  forall j, a <= j < b ->
    exists hz q, f0Med !! Z.to_nat j = Some hz /\ quantised hz q /\ same_pitch q cm.

(** A note on its frame range: times, and the run it stands for. *)
Definition note_run {Id : Type} (frameDur : number) (f0Med : list number)
    (n : Note Id) (ab : Z * Z) : Prop :=
  spans frameDur n ab /\ run_of f0Med (fst ab) (snd ab) (midi n).

(** What the segmentation loop has built when it reaches frame [i]. *)
Definition runs_ok {Id : Type} (frameDur : number) (f0Med : list number) (i : Z)
    (st : @seg_state Id) : Prop :=
  let '(notes, curStart, curMidi) := st in
  exists sp, Forall2 (note_run frameDur f0Med) notes sp /\
    match curMidi with
    | None => sequential 0 i sp
    | Some cm => exists a, 0 <= a < i /\ curStart = mul (of_Z a) frameDur /\
                           sequential 0 a sp /\ run_of f0Med a i cm
    end.

End Runs.

End Runs.

(** *** Math.max and Math.min *)

Module Math.

(** [Number.isNaN] *)
Definition isNaN (x : number) : bool :=
  match x with S754_nan => true | _ => false end.

Definition sign_bit (x : number) : bool :=
  match x with
  | S754_zero s | S754_infinity s | S754_finite s _ _ => s
  | S754_nan => false
  end.

(** [Math.max(x, y)] and [Math.min(x, y)]: NaN when either is, and +0 above
    -0. *)
Definition max (x y : number) : number :=
  if isNaN x || isNaN y then NaN
  else if lt x y then y
  else if lt y x then x
  else if sign_bit x then y else x.

Definition min (x y : number) : number :=
  if isNaN x || isNaN y then NaN
  else if lt x y then x
  else if lt y x then y
  else if sign_bit x then x else y.

End Math.

(** *** music.ts on numbers *)

(** The functions of music.ts on binary64 numbers.  [Math.log2] is taken as
    given.  [Math.round(midi)] is an integer [m].  The remainder [m % 12] is
    exact on every binary64 number, so the table entry is that of the integer
    [m].  The octave [Math.floor(m / 12) - 1] and its decimal form are
    computed on the integer [m]: this is what the code does for the [m] of
    magnitude below 2^53, where the division rounds to a number with the same
    integer part and the result prints as an integer; for larger [m] the
    code rounds and prints a double, which is not modelled. *)
Module MusicNum.

Import Segment.

(** [!hz]: zero of either sign, or NaN. *)
Definition falsy (hz : number) : bool := is_zero hz || Math.isNaN hz.

(** [hzToMidi(hz)] *)
Definition hzToMidi (log2 : number -> number) (hz : number) : option number :=
  if falsy hz || le hz zero then None
  else Some (add c69 (mul c12 (log2 (div hz c440)))).

Definition names : list string :=
  ["C"; "C#"; "D"; "D#"; "E"; "F"; "F#"; "G"; "G#"; "A"; "A#"; "B"]%string.

Definition solfeggio : list string :=
  ["ド"; "ド#"; "レ"; "レ#"; "ミ"; "ファ"; "ファ#"; "ソ"; "ソ#"; "ラ"; "ラ#"; "シ"]%string.

(** [(m % 12 + 12) % 12]: [%] takes the sign of the dividend. *)
Definition name_index (m : Z) : Z := Z.rem (Z.rem m 12 + 12) 12.

(** [Math.floor(m / 12) - 1] *)
Definition octave_of (m : Z) : Z := m / 12 - 1.

(** [names[i]]: [undefined] outside the array prints as such. *)
Definition name_at (table : list string) (i : Z) : string :=
  if i <? 0 then "undefined"%string
  else default "undefined"%string (table !! Z.to_nat i).

(** [midiToNoteName(midi)] *)
Definition midiToNoteName (midi : number) : string :=
  match to_integral (round midi) with
  | IInt m => name_at names (name_index m) +:+ pretty (octave_of m)
  | IInf s => if s then "undefined-Infinity"%string else "undefinedInfinity"%string
  | INaN => "undefinedNaN"%string
  end.

(** [midiToSolfeggio(midi)]: [names[NaN]] is [undefined]. *)
Definition midiToSolfeggio (midi : number) : option string :=
  match to_integral (round midi) with
  | IInt m => Some (name_at solfeggio (name_index m))
  | _ => None
  end.

End MusicNum.

(** *** App.tsx: the live history and the time window *)

Module App.

Import Tracker Segment.

(** The callback given to the tracker:
    [setLive(prev => [...prev, p].filter(x => p.tSec - x.tSec <= 30))]. *)
Definition keep_live (prev : list PitchPoint) (p : PitchPoint) : list PitchPoint :=
  List.filter (fun x => le (sub (tSec p) (tSec x)) (of_Z 30)) (prev ++ [p]).

(** The history after the points [pts] were passed on, in order. *)
Definition live_after (pts : list PitchPoint) : list PitchPoint :=
  foldl keep_live [] pts.

(** [loadPart]: the window set for the notes of a part,
    [[0, Math.max(10, Math.min(30, maxT))]] with [maxT] the latest end of a
    note, 10 at least. *)
Definition maxT {Id : Type} (data : list (Note Id)) : number :=
  foldl (fun m n => Math.max m (add (start n) (duration n))) (of_Z 10) data.

Definition loadPart_window {Id : Type} (data : list (Note Id)) : number * number :=
  (zero, Math.max (of_Z 10) (Math.min (of_Z 30) (maxT data))).

End App.

(** * Proofs *)

Import Yin Smoothing Examples Inv.

(** Closed goals settled by evaluation. *)
Ltac computed := vm_compute; reflexivity.

(** ** The numbers at work *)

Example round_ties_up :
  round (ratio 5 2) = of_Z 3 /\ round (ratio (-5) 2) = of_Z (-2) /\
  round (ratio (-1) 2) = S754_zero true /\ round (ratio 49 100) = zero.
Proof. repeat apply conj; computed. Qed.

Example floor_rounds_down :
  floor (ratio 3675 100) = of_Z 36 /\ floor (ratio (-3) 10) = of_Z (-1).
Proof. repeat apply conj; computed. Qed.

Example fround_tenth :
  fround (ratio 1 10) = ratio 13421773 134217728 /\
  fround (of_Z (2 ^ 130)) = PInf.
Proof. repeat apply conj; computed. Qed.

Example zero_over_zero : div (mul zero (of_Z 3)) zero = NaN.
Proof. reflexivity. Qed.

Example nan_compares_false (x : number) : lt NaN x = false /\ lt x NaN = false.
Proof. split; [reflexivity | destruct x; reflexivity]. Qed.

(** The lag window of both components at 44100 Hz. *)
Example lags_44100 :
  to_integral (minLag (Segment.file_config (of_Z 44100))) = IInt 36 /\
  to_integral (maxLag (Segment.file_config (of_Z 44100))) = IInt 882.
Proof. split; computed. Qed.

(** A square wave of period 2 at 100 Hz is heard at 50 Hz, with certainty. *)
Example yin_square4 :
  yin square4 (Tracker.yin_config (Tracker.tracker (Tracker.construct rate100 no_options))
                 rate100)
  = Returns {| freqHz := Some (of_Z 50); probability := of_Z 1 |}.
Proof. computed. Qed.

Lemma medianFilter_length (arr : list number) (win : Z) :
  length (medianFilter arr win) = length arr.
Proof. unfold medianFilter. now rewrite length_map, length_seq. Qed.

Example medianFilter_outlier :
  medianFilter (map of_Z [100; 100; 900; 100; 100]) 3 = map of_Z [100; 100; 100; 100; 100] /\
  medianFilter [NaN; of_Z 7; NaN; NaN; NaN] 3 = [of_Z 7; of_Z 7; of_Z 7; NaN; NaN].
Proof. split; computed. Qed.

(** ** Facts about rounding *)

Lemma digits2_pos_lower (m : positive) :
  2 ^ (Zpos (digits2_pos m) - 1) <= Zpos m.
Proof.
  induction m as [m IH | m IH |]; simpl digits2_pos;
    try (rewrite Pos2Z.inj_succ;
         replace (Z.succ (Zpos (digits2_pos m)) - 1)
           with (Z.succ (Zpos (digits2_pos m) - 1)) by lia;
         rewrite Z.pow_succ_r by lia; lia).
  simpl. lia.
Qed.

Lemma shr_1_m (mrs : shr_record) :
  0 <= shr_m mrs -> shr_m (shr_1 mrs) = Z.shiftr (shr_m mrs) 1.
Proof.
  destruct mrs as [m r s]; simpl. intros Hm.
  destruct m as [| [q | q |] | q]; simpl; try reflexivity; lia.
Qed.

Lemma iter_shr_1_m (n : positive) : forall mrs,
  0 <= shr_m mrs ->
  shr_m (SpecFloat.iter_pos shr_1 n mrs) = Z.shiftr (shr_m mrs) (Zpos n).
Proof.
  induction n as [n IH | n IH |]; intros mrs Hm; simpl SpecFloat.iter_pos.
  - assert (H1 : 0 <= shr_m (shr_1 mrs)).
    { rewrite shr_1_m by assumption. apply Z.shiftr_nonneg. exact Hm. }
    assert (H2 : 0 <= shr_m (SpecFloat.iter_pos shr_1 n (shr_1 mrs))).
    { rewrite IH by assumption. apply Z.shiftr_nonneg. exact H1. }
    rewrite (IH _ H2), (IH _ H1), shr_1_m by assumption.
    rewrite !Z.shiftr_shiftr by lia. f_equal. lia.
  - assert (H2 : 0 <= shr_m (SpecFloat.iter_pos shr_1 n mrs)).
    { rewrite IH by assumption. apply Z.shiftr_nonneg. exact Hm. }
    rewrite (IH _ H2), (IH _ Hm).
    rewrite !Z.shiftr_shiftr by lia. f_equal. lia.
  - apply shr_1_m. exact Hm.
Qed.

Section Rounding.

Variables prec emax : Z.
Hypothesis prec_pos : 0 < prec.

(** A right shift by fewer places than the mantissa has digits leaves a
    positive mantissa, at an exponent that is not below [emin]. *)
Lemma shr_fexp_pos (m : positive) (e : Z) (l : location) :
  emin prec emax <= e ->
  0 < shr_m (fst (shr_fexp prec emax (Zpos m) e l)) /\
  emin prec emax <= snd (shr_fexp prec emax (Zpos m) e l).
Proof.
  intros He. unfold shr_fexp, shr, fexp. simpl Zdigits2.
  set (d := Zpos (digits2_pos m)).
  assert (Hd : 2 ^ (d - 1) <= Zpos m) by apply digits2_pos_lower.
  assert (Hm : shr_m (shr_record_of_loc (Zpos m) l) = Zpos m).
  { destruct l as [| []]; reflexivity. }
  destruct (Z.max (d + e - prec) (emin prec emax) - e) as [| n | n] eqn:Hn;
    simpl fst; simpl snd.
  - rewrite Hm. lia.
  - rewrite iter_shr_1_m by (rewrite Hm; lia). rewrite Hm.
    split; [| lia].
    rewrite Z.shiftr_div_pow2 by lia.
    assert (Hle : Zpos n <= d - 1) by lia.
    assert (2 ^ Zpos n <= 2 ^ (d - 1)) by (apply Z.pow_le_mono_r; lia).
    apply Z.div_str_pos. lia.
  - rewrite Hm. lia.
Qed.

Lemma round_nearest_even_pos (m : Z) (l : location) :
  0 < m -> 0 < round_nearest_even m l.
Proof.
  intros Hm. destruct l as [| []]; simpl; try lia.
  destruct (Z.even m); lia.
Qed.

Lemma binary_round_aux_signed s mx ex lx :
  signed s (binary_round_aux prec emax s mx ex lx).
Proof.
  unfold binary_round_aux.
  destruct (shr_fexp prec emax mx ex lx) as [mrs' e'].
  destruct (shr_fexp prec emax _ e' loc_Exact) as [mrs'' e''].
  destruct (shr_m mrs''); simpl; auto.
  destruct (e'' <=? emax - prec); simpl; auto.
Qed.

Lemma binary_round_signed s m e :
  signed s (binary_round prec emax s m e).
Proof.
  unfold binary_round. destruct (shl_align _ _ _) as [mz ez].
  apply binary_round_aux_signed.
Qed.

Lemma shr_fexp_above m e l :
  emin prec emax <= snd (shr_fexp prec emax m e l).
Proof.
  unfold shr_fexp, shr, fexp.
  destruct (Z.max _ (emin prec emax) - e) eqn:Hn; simpl snd; lia.
Qed.

Lemma binary_round_aux_above s mx ex lx :
  above_emin prec emax (binary_round_aux prec emax s mx ex lx).
Proof.
  unfold binary_round_aux.
  destruct (shr_fexp prec emax mx ex lx) as [mrs' e'].
  pose proof (shr_fexp_above (round_nearest_even (shr_m mrs') (loc_of_shr_record mrs')) e' loc_Exact) as H.
  destruct (shr_fexp prec emax _ e' loc_Exact) as [mrs'' e'']. simpl in H.
  destruct (shr_m mrs''); simpl; auto.
  destruct (e'' <=? emax - prec); simpl; auto.
Qed.

Lemma binary_round_above s m e :
  above_emin prec emax (binary_round prec emax s m e).
Proof.
  unfold binary_round. destruct (shl_align _ _ _) as [mz ez].
  apply binary_round_aux_above.
Qed.

(** Rounding a positive mantissa held at [emin] or above never gives zero. *)
Lemma binary_round_aux_nonzero s (m : positive) e :
  emin prec emax <= e ->
  is_zero (binary_round_aux prec emax s (Zpos m) e loc_Exact) = false.
Proof.
  intros He. unfold binary_round_aux.
  destruct (shr_fexp_pos m e loc_Exact He) as [H1 H1e].
  destruct (shr_fexp prec emax (Zpos m) e loc_Exact) as [mrs' e'].
  simpl in H1, H1e.
  pose proof (round_nearest_even_pos _ (loc_of_shr_record mrs') H1) as H2.
  destruct (round_nearest_even (shr_m mrs') (loc_of_shr_record mrs')) as [| m2 | m2];
    try lia.
  destruct (shr_fexp_pos m2 e' loc_Exact H1e) as [H3 _].
  destruct (shr_fexp prec emax (Zpos m2) e' loc_Exact) as [mrs'' e''].
  simpl in H3.
  destruct (shr_m mrs''); try lia.
  destruct (e'' <=? emax - prec); reflexivity.
Qed.

Lemma binary_round_nonzero s (m : positive) e :
  emin prec emax <= e ->
  is_zero (binary_round prec emax s m e) = false.
Proof.
  intros He. unfold binary_round, shl_align.
  destruct (fexp prec emax (Zpos (digits2_pos m) + e) - e) eqn:Hd;
    apply binary_round_aux_nonzero; try exact He.
  unfold fexp in *. lia.
Qed.

End Rounding.

(** ** Facts about the arithmetic of numbers *)

Lemma prec_pos : 0 < prec.
Proof. reflexivity. Qed.

Lemma nonneg_signed (x : number) : signed false x -> nonneg x = true.
Proof. destruct x; simpl; intros; subst; reflexivity. Qed.

Lemma add_nonneg (x y : number) :
  nonneg x = true -> nonneg y = true -> nonneg (add x y) = true.
Proof.
  destruct x as [sx | sx | | sx mx ex], y as [sy | sy | | sy my ey];
    simpl; intros Hx Hy; try reflexivity; try assumption;
    try (destruct sx, sy; simpl in *; congruence).
  destruct sx, sy; try discriminate. unfold add, SFadd. simpl cond_Zopp.
  apply nonneg_signed. simpl. apply binary_round_signed.
Qed.

Lemma add_wf (x y : number) : wf x -> wf y -> wf (add x y).
Proof.
  destruct x as [sx | sx | | sx mx ex], y as [sy | sy | | sy my ey];
    simpl; intros Hx Hy; try exact I; try assumption;
    try (destruct sx, sy; exact I).
  unfold wf, add, SFadd.
  destruct (cond_Zopp sx _ + cond_Zopp sy _); simpl; auto;
    apply binary_round_above.
Qed.

Lemma add_zero_inv (x y : number) :
  nonneg x = true -> nonneg y = true -> wf x -> wf y ->
  is_zero (add x y) = true -> is_zero x = true /\ is_zero y = true.
Proof.
  destruct x as [sx | sx | | sx mx ex], y as [sy | sy | | sy my ey];
    simpl; intros Hx Hy Wx Wy Hz; auto; try discriminate;
    try (destruct sx, sy; simpl in *; discriminate).
  exfalso. destruct sx, sy; try discriminate.
  unfold add, SFadd in Hz. simpl cond_Zopp in Hz. simpl in Hz.
  rewrite binary_round_nonzero in Hz; [discriminate | exact prec_pos |].
  simpl in Wx, Wy. lia.
Qed.

Lemma mul_self_nonneg (d : number) : nonneg (mul d d) = true.
Proof.
  destruct d as [s | s | | s m e]; try reflexivity;
    try (destruct s; reflexivity).
  unfold mul, SFmul. rewrite xorb_nilpotent.
  apply nonneg_signed, binary_round_aux_signed.
Qed.

Lemma mul_wf (x y : number) : wf (mul x y).
Proof.
  destruct x as [sx | sx | | sx mx ex], y as [sy | sy | | sy my ey];
    simpl; try exact I.
  apply binary_round_aux_above.
Qed.

Lemma fround_nonneg (x : number) : nonneg x = true -> nonneg (fround x) = true.
Proof.
  destruct x as [s | s | | s m e]; simpl; auto. intros Hs.
  pose proof (binary_round_signed 24 128 s m e) as H1.
  destruct (binary_round 24 128 s m e) as [s' | s' | | s' m' e'];
    simpl in *; subst; auto.
  destruct s; try discriminate.
  apply nonneg_signed, binary_round_signed.
Qed.

Lemma fround_wf (x : number) : wf (fround x).
Proof.
  destruct x as [s | s | | s m e]; simpl; try exact I.
  destruct (binary_round 24 128 s m e); try exact I.
  apply binary_round_above.
Qed.

Lemma fround_zero (x : number) : is_zero x = true -> fround x = x.
Proof. destruct x; simpl; try discriminate; reflexivity. Qed.

(** Zero times anything is zero or NaN, and either one over zero is NaN. *)
Lemma div_mul_zero_zero (d t r : number) :
  is_zero d = true -> is_zero r = true -> div (mul d t) r = NaN.
Proof.
  destruct d; try discriminate. destruct r; try discriminate.
  intros _ _. destruct t; reflexivity.
Qed.

(** ** Facts about typed arrays and loops *)

Lemma F32_length_make (n : Z) : F32.length (F32.make n) = Z.max 0 n.
Proof. unfold F32.length, F32.make. rewrite length_replicate. lia. Qed.

Lemma F32_length_set (a : F32.t) (i : Z) (v : number) :
  F32.length (F32.set a i v) = F32.length a.
Proof.
  unfold F32.length, F32.set. destruct (i <? 0); [reflexivity |].
  now rewrite length_insert.
Qed.

Lemma F32_get_outside (a : F32.t) (i : Z) :
  i < 0 \/ F32.length a <= i -> F32.get a i = NaN.
Proof.
  unfold F32.get, F32.length. intros H.
  destruct (i <? 0) eqn:Hi; [reflexivity |].
  apply Z.ltb_ge in Hi. rewrite lookup_ge_None_2 by lia. reflexivity.
Qed.

Lemma F32_get_set_eq (a : F32.t) (i : Z) (v : number) :
  0 <= i < F32.length a -> F32.get (F32.set a i v) i = fround v.
Proof.
  unfold F32.get, F32.set, F32.length. intros H.
  destruct (i <? 0) eqn:Hi; [lia |].
  rewrite list_lookup_insert_eq by lia. reflexivity.
Qed.

Lemma F32_get_set_ne (a : F32.t) (i j : Z) (v : number) :
  i <> j -> F32.get (F32.set a i v) j = F32.get a j.
Proof.
  unfold F32.get, F32.set. intros H.
  destruct (i <? 0) eqn:Hi; [reflexivity |].
  destruct (j <? 0) eqn:Hj; [reflexivity |].
  rewrite list_lookup_insert_ne by lia. reflexivity.
Qed.

Lemma F32_get_make (n i : Z) :
  0 <= i < n -> F32.get (F32.make n) i = zero.
Proof.
  unfold F32.get, F32.make. intros H.
  destruct (i <? 0) eqn:Hi; [lia |].
  rewrite lookup_replicate_2 by lia. reflexivity.
Qed.

(** What holds of every element read from an array, as long as it holds of
    what is stored. *)
Lemma F32_get_set_all (P : number -> Prop) (a : F32.t) (i : Z) (v : number) :
  P (fround v) -> (forall j, P (F32.get a j)) ->
  forall j, P (F32.get (F32.set a i v) j).
Proof.
  intros Hv Ha j. destruct (Z.eq_dec i j) as [-> | Hne].
  - destruct (Z_lt_dec j 0) as [Hj | Hj].
    + rewrite F32_get_outside by auto. rewrite <- (F32_get_outside a j) by auto. apply Ha.
    + destruct (Z_lt_dec j (F32.length a)) as [Hl | Hl].
      * rewrite F32_get_set_eq by lia. exact Hv.
      * rewrite F32_get_outside by (rewrite F32_length_set; lia).
        rewrite <- (F32_get_outside a j) by lia. apply Ha.
  - rewrite F32_get_set_ne by assumption. apply Ha.
Qed.

Lemma F32_get_make_all (P : number -> Prop) (n : Z) :
  P zero -> P NaN -> forall j, P (F32.get (F32.make n) j).
Proof.
  intros Hz Hn j.
  destruct (Z_lt_dec j 0); [rewrite F32_get_outside by auto; exact Hn |].
  destruct (Z_lt_dec j n); [rewrite F32_get_make by lia; exact Hz |].
  rewrite F32_get_outside by (rewrite F32_length_make; lia). exact Hn.
Qed.

Lemma for_loop_snoc {S : Type} (n : nat) : forall (lo : Z) (body : Z -> S -> S) (s : S),
  for_loop (Datatypes.S n) lo body s = body (lo + Z.of_nat n) (for_loop n lo body s).
Proof.
  induction n as [| n IH]; intros lo body s.
  - simpl. now rewrite Z.add_0_r.
  - change (for_loop (Datatypes.S (Datatypes.S n)) lo body s)
      with (for_loop (Datatypes.S n) (lo + 1) body (body lo s)).
    rewrite IH. simpl for_loop. f_equal. lia.
Qed.

Lemma for_range_last {S : Type} (lo hi : Z) (body : Z -> S -> S) (s : S) :
  lo <= hi -> for_range lo hi body s = body hi (for_range lo (hi - 1) body s).
Proof.
  intros H. unfold for_range.
  replace (Z.to_nat (hi - lo + 1)) with (Datatypes.S (Z.to_nat (hi - 1 - lo + 1))) by lia.
  rewrite for_loop_snoc. f_equal. lia.
Qed.

Lemma for_range_invariant {S : Type} (P : S -> Prop) (lo hi : Z)
    (body : Z -> S -> S) (s : S) :
  P s -> (forall k st, lo <= k <= hi -> P st -> P (body k st)) ->
  P (for_range lo hi body s).
Proof.
  intros Hs Hbody. unfold for_range.
  assert (H : forall n, (Z.of_nat n <= Z.max 0 (hi - lo + 1)) -> P (for_loop n lo body s)).
  { induction n as [| n IH]; intros Hn; [exact Hs |].
    rewrite for_loop_snoc. apply Hbody; [lia | apply IH; lia]. }
  apply H. lia.
Qed.

(** ** The tables of the estimator *)

Lemma sum_like_zero : sum_like zero.
Proof. split; [reflexivity | exact I]. Qed.

Lemma sum_like_nan : sum_like NaN.
Proof. split; [reflexivity | exact I]. Qed.

Lemma sum_like_add (x y : number) : sum_like x -> sum_like y -> sum_like (add x y).
Proof. intros [? ?] [? ?]. split; [apply add_nonneg | apply add_wf]; assumption. Qed.

Lemma sum_like_fround (x : number) : sum_like x -> sum_like (fround x).
Proof. intros [? ?]. split; [apply fround_nonneg; assumption | apply fround_wf]. Qed.

Lemma diff_sum_sum_like (frame : F32.t) (tau : Z) (n : nat) : forall i sum,
  sum_like sum -> sum_like (diff_sum frame tau n i sum).
Proof.
  induction n as [| n IH]; intros i sum Hs; simpl; [exact Hs |].
  apply IH, sum_like_add; [exact Hs |].
  split; [apply mul_self_nonneg | apply mul_wf].
Qed.

Lemma diff_table_sum_like (frame : F32.t) (m M : Z) :
  forall j, sum_like (F32.get (diff_table frame m M) j).
Proof.
  unfold diff_table.
  apply (for_range_invariant (fun a => forall j, sum_like (F32.get a j))).
  - apply F32_get_make_all; [exact sum_like_zero | exact sum_like_nan].
  - intros k a _ Ha. apply F32_get_set_all; [| exact Ha].
    apply sum_like_fround, diff_sum_sum_like, sum_like_zero.
Qed.

Lemma cmnd_loop_last (diff : F32.t) (M tau : Z) :
  1 <= tau ->
  cmnd_loop diff M tau = cmnd_step diff tau (cmnd_loop diff M (tau - 1)).
Proof. intros H. unfold cmnd_loop. now apply for_range_last. Qed.

Lemma cmnd_loop_length (diff : F32.t) (M upto : Z) :
  F32.length (snd (cmnd_loop diff M upto)) = Z.max 0 (M + 1).
Proof.
  unfold cmnd_loop.
  apply (for_range_invariant (fun st => F32.length (snd st) = Z.max 0 (M + 1))).
  - unfold cmnd_init. simpl. now rewrite F32_length_set, F32_length_make.
  - intros k st _ H. unfold cmnd_step. simpl. now rewrite F32_length_set.
Qed.

Lemma running_sum_sum_like (frame : F32.t) (m M tau : Z) :
  sum_like (running_sum frame m M tau).
Proof.
  unfold running_sum, cmnd_loop.
  apply (for_range_invariant (fun st => sum_like (fst st))).
  - exact sum_like_zero.
  - intros k st _ H. unfold cmnd_step. simpl.
    apply sum_like_add; [exact H | apply diff_table_sum_like].
Qed.

(** The running sum after the turn for [tau] is the one before plus [diff[tau]]. *)
Lemma running_sum_last (frame : F32.t) (m M tau : Z) :
  1 <= tau ->
  running_sum frame m M tau =
  add (running_sum frame m M (tau - 1)) (F32.get (diff_table frame m M) tau).
Proof. intros H. unfold running_sum. now rewrite cmnd_loop_last. Qed.

(** Once written, [cmnd[tau]] is not touched again. *)
Lemma cmnd_loop_get (diff : F32.t) (M tau : Z) (n : nat) :
  1 <= tau <= M ->
  F32.get (snd (cmnd_loop diff M (tau + Z.of_nat n))) tau =
  fround (div (mul (F32.get diff tau) (of_Z tau)) (fst (cmnd_loop diff M tau))).
Proof.
  intros Ht. induction n as [| n IH].
  - replace (tau + Z.of_nat 0) with tau by lia.
    rewrite cmnd_loop_last by lia. unfold cmnd_step. simpl.
    rewrite F32_get_set_eq by (rewrite cmnd_loop_length; lia).
    reflexivity.
  - replace (tau + Z.of_nat (S n)) with (tau + Z.of_nat n + 1) by lia.
    rewrite cmnd_loop_last by lia. unfold cmnd_step at 1. simpl snd.
    rewrite F32_get_set_ne by lia.
    replace (tau + Z.of_nat n + 1 - 1) with (tau + Z.of_nat n) by lia. exact IH.
Qed.

Lemma cmnd_table_get (frame : F32.t) (m M tau : Z) :
  1 <= tau <= M ->
  F32.get (cmnd_table frame m M) tau =
  fround (div (mul (F32.get (diff_table frame m M) tau) (of_Z tau))
              (running_sum frame m M tau)).
Proof.
  intros Ht. unfold cmnd_table, running_sum.
  replace M with (tau + Z.of_nat (Z.to_nat (M - tau))) at 3 by lia.
  now apply cmnd_loop_get.
Qed.

Lemma cmnd_table_get_0 (frame : F32.t) (m M : Z) :
  0 <= M -> F32.get (cmnd_table frame m M) 0 = one.
Proof.
  intros HM. unfold cmnd_table, cmnd_loop.
  apply (for_range_invariant (fun st => F32.get (snd st) 0 = one)).
  - unfold cmnd_init. simpl. rewrite F32_get_set_eq by (rewrite F32_length_make; lia).
    reflexivity.
  - intros k st Hk H. unfold cmnd_step. simpl. now rewrite F32_get_set_ne by lia.
Qed.

(** C1, as the code has it: whenever the running sum of the recurrence is
    exactly zero once the turn for a lag [tau] has run, the value stored in
    [cmnd[tau]] is NaN, the result of [0 * tau / 0]; it is not 0.  No
    comparison [cmnd[tau] < threshold] holds of it, so the search never
    selects such a lag. *)
Theorem cmnd_zero_running_sum_is_nan (frame : F32.t) (m M tau : Z) :
  1 <= tau <= M ->
  is_zero (running_sum frame m M tau) = true ->
  F32.get (cmnd_table frame m M) tau = NaN /\
  forall threshold, lt (F32.get (cmnd_table frame m M) tau) threshold = false.
Proof.
  intros Ht Hz.
  assert (Hnan : F32.get (cmnd_table frame m M) tau = NaN).
  { rewrite cmnd_table_get by assumption.
    rewrite running_sum_last in Hz by lia.
    destruct (running_sum_sum_like frame m M (tau - 1)) as [Hn1 Hw1].
    destruct (diff_table_sum_like frame m M tau) as [Hn2 Hw2].
    destruct (add_zero_inv _ _ Hn1 Hn2 Hw1 Hw2 Hz) as [_ Hd].
    rewrite running_sum_last by lia.
    rewrite div_mul_zero_zero; [reflexivity | exact Hd | exact Hz]. }
  split; [exact Hnan |]. intros thr. rewrite Hnan. reflexivity.
Qed.

(** ** The search *)

Lemma compare_antisym (x y : number) :
  SFcompare y x = option_map CompOpp (SFcompare x y).
Proof.
  destruct x as [sx | sx | | sx mx ex], y as [sy | sy | | sy my ey];
    simpl; try reflexivity;
    try (destruct sx; reflexivity); try (destruct sy; reflexivity);
    try (destruct sx, sy; reflexivity).
  destruct sx, sy; simpl; try reflexivity;
    rewrite (Z.compare_antisym ex ey); destruct (ex ?= ey); simpl; try reflexivity;
    rewrite (Pos.compare_cont_antisym mx my Eq); simpl;
    try rewrite CompOpp_involutive; reflexivity.
Qed.

Lemma lt_asym (x y : number) : lt x y = true -> lt y x = false.
Proof.
  unfold lt, SFltb. rewrite (compare_antisym x y).
  destruct (SFcompare x y) as [[] |]; simpl; congruence.
Qed.

Lemma search_spec (cmnd : F32.t) (thr : number) (n : nat) : forall t0,
  let r := search cmnd thr n t0 in
  (r = -1 /\ forall t, t0 <= t < t0 + Z.of_nat n -> lt (F32.get cmnd t) thr = false) \/
  (t0 <= r < t0 + Z.of_nat n /\ 0 <= r /\ lt (F32.get cmnd r) thr = true /\
   forall t, t0 <= t < r -> lt (F32.get cmnd t) thr = false).
Proof.
  induction n as [| n IH]; intros t0; simpl search.
  - left. split; [reflexivity | intros; lia].
  - destruct (lt (F32.get cmnd t0) thr) eqn:Ht.
    + right. repeat split; try lia; try exact Ht.
      destruct (Z_lt_dec t0 0) as [Hneg | ?]; [| lia].
      rewrite F32_get_outside in Ht by auto. discriminate.
    + destruct (IH (t0 + 1)) as [[Hr Hall] | (Hr & H0 & Hlt & Hall)].
      * left. split; [exact Hr |]. intros t Hrange.
        destruct (Z.eq_dec t t0) as [-> | ?]; [exact Ht | apply Hall; lia].
      * right. repeat split; try lia; try exact Hlt.
        intros t Hrange.
        destruct (Z.eq_dec t t0) as [-> | ?]; [exact Ht | apply Hall; lia].
Qed.

Lemma first_below_spec (cmnd : F32.t) (thr : number) (m M : Z) :
  let r := first_below cmnd thr m M in
  (r = -1 /\ forall t, m <= t <= M -> lt (F32.get cmnd t) thr = false) \/
  (m <= r <= M /\ 0 <= r /\ lt (F32.get cmnd r) thr = true /\
   forall t, m <= t < r -> lt (F32.get cmnd t) thr = false).
Proof.
  unfold first_below.
  destruct (search_spec cmnd thr (Z.to_nat (M - m + 1)) m) as [[Hr Hall] | (Hr & H0 & Hlt & Hall)].
  - left. split; [exact Hr |]. intros t Ht. apply Hall. lia.
  - right. repeat split; try lia; assumption.
Qed.

(** ** Lags of a valid configuration *)

Lemma lt_zero_positive (x : number) :
  lt zero x = true -> x = PInf \/ exists m e, x = S754_finite false m e.
Proof.
  destruct x as [s | s | | s m e]; try discriminate; destruct s; try discriminate.
  - now left.
  - right. now exists m, e.
Qed.

Lemma div_positive_nonneg (x y : number) :
  lt zero x = true -> lt zero y = true -> nonneg (div x y) = true.
Proof.
  intros Hx Hy.
  destruct (lt_zero_positive x Hx) as [-> | (mx & ex & ->)],
           (lt_zero_positive y Hy) as [-> | (my & ey & ->)]; try reflexivity.
  unfold div, SFdiv. destruct (SFdiv_core_binary _ _ _ _ _ _) as [[mz ez] lz].
  apply nonneg_signed, binary_round_aux_signed.
Qed.

Lemma to_integral_nonneg (x : number) :
  nonneg x = true ->
  match to_integral x with
  | IInt z => 0 <= z
  | IInf s => s = false
  | INaN => True
  end.
Proof.
  destruct x as [s | s | | s m e]; simpl.
  - lia.
  - destruct s; simpl; congruence.
  - intros _. exact I.
  - destruct s; [discriminate |]. intros _. simpl.
    destruct (0 <=? e) eqn:He.
    + apply Z.leb_le in He. assert (0 < 2 ^ e) by (apply Z.pow_pos_nonneg; lia). lia.
    + apply Z.quot_pos; [lia |]. apply Z.leb_gt in He. apply Z.pow_pos_nonneg; lia.
Qed.

Lemma of_Z_nonneg (z : Z) : 0 <= z -> nonneg (of_Z z) = true.
Proof.
  intros Hz. destruct z as [| p | p]; try lia; [reflexivity |].
  apply nonneg_signed. apply binary_round_signed.
Qed.

Lemma floor_nonneg (x : number) : nonneg x = true -> nonneg (floor x) = true.
Proof.
  destruct x as [s | s | | s m e]; simpl; auto.
  intros Hs. destruct s; [discriminate |]. destruct (0 <=? e); [reflexivity |].
  apply of_Z_nonneg. simpl cond_Zopp. apply Z.shiftr_nonneg. lia.
Qed.

(** With a positive sample rate and a positive frequency bound, a lag bound
    is a natural number, +Infinity or NaN. *)
Lemma lag_nonneg (sr f : number) :
  lt zero sr = true -> lt zero f = true ->
  match to_integral (floor (div sr f)) with
  | IInt z => 0 <= z
  | IInf s => s = false
  | INaN => True
  end.
Proof.
  intros Hsr Hf. apply to_integral_nonneg, floor_nonneg, div_positive_nonneg; assumption.
Qed.

Lemma lt_trans_zero (x y : number) :
  lt zero x = true -> lt x y = true -> lt zero y = true.
Proof.
  intros Hx Hxy.
  destruct (lt_zero_positive x Hx) as [-> | (mx & ex & ->)];
    destruct y as [s | s | | s m e]; try discriminate;
    destruct s; try discriminate; reflexivity.
Qed.

Lemma is_infinite_to_integral (x : number) :
  is_infinite x = false -> forall s, to_integral x <> IInf s.
Proof. destruct x; simpl; intros; congruence. Qed.

(** ** Silence *)

Lemma zn_sub (x y : number) : zero_or_nan x -> zero_or_nan y -> zero_or_nan (sub x y).
Proof.
  intros [Hx | ->] [Hy | ->].
  - left. destruct x as [[] | | |], y as [[] | | |]; try discriminate; reflexivity.
  - right. destruct x; reflexivity.
  - right. reflexivity.
  - right. reflexivity.
Qed.

Lemma zn_mul (x y : number) : zero_or_nan x -> zero_or_nan y -> zero_or_nan (mul x y).
Proof.
  intros [Hx | ->] [Hy | ->].
  - left. destruct x, y; try discriminate; reflexivity.
  - right. destruct x; reflexivity.
  - right. reflexivity.
  - right. reflexivity.
Qed.

Lemma zn_add (x y : number) : zero_or_nan x -> zero_or_nan y -> zero_or_nan (add x y).
Proof.
  intros [Hx | ->] [Hy | ->].
  - left. destruct x as [[] | | |], y as [[] | | |]; try discriminate; reflexivity.
  - right. destruct x; reflexivity.
  - right. reflexivity.
  - right. reflexivity.
Qed.

Lemma zn_fround (x : number) : zero_or_nan x -> zero_or_nan (fround x).
Proof.
  intros [Hx | ->]; [left | right; reflexivity].
  now rewrite fround_zero.
Qed.

Lemma silent_get (frame : F32.t) (i : Z) :
  silent frame -> zero_or_nan (F32.get frame i).
Proof.
  intros Hs. unfold F32.get. destruct (i <? 0); [now right |].
  destruct ((frame : list number) !! Z.to_nat i) as [x |] eqn:Hx; [| now right].
  left. simpl. unfold silent in Hs. rewrite Forall_lookup in Hs. exact (Hs _ _ Hx).
Qed.

Lemma silent_diff_sum (frame : F32.t) (tau : Z) (n : nat) :
  silent frame -> forall i sum, zero_or_nan sum ->
  zero_or_nan (diff_sum frame tau n i sum).
Proof.
  intros Hs. induction n as [| n IH]; intros i sum Hsum; simpl; [exact Hsum |].
  apply IH, zn_add; [exact Hsum |].
  apply zn_mul; apply zn_sub; apply silent_get; exact Hs.
Qed.

Lemma silent_diff_table (frame : F32.t) (m M : Z) :
  silent frame -> forall j, zero_or_nan (F32.get (diff_table frame m M) j).
Proof.
  intros Hs. unfold diff_table.
  apply (for_range_invariant (fun a => forall j, zero_or_nan (F32.get a j))).
  - apply F32_get_make_all; [now left | now right].
  - intros k a _ Ha. apply F32_get_set_all; [| exact Ha].
    apply zn_fround, silent_diff_sum; [exact Hs | now left].
Qed.

Lemma silent_running_sum (frame : F32.t) (m M tau : Z) :
  silent frame -> zero_or_nan (running_sum frame m M tau).
Proof.
  intros Hs. unfold running_sum, cmnd_loop.
  apply (for_range_invariant (fun st => zero_or_nan (fst st))).
  - now left.
  - intros k st _ H. unfold cmnd_step. simpl.
    apply zn_add; [exact H | now apply silent_diff_table].
Qed.

(** On silence every normalised difference from lag 1 on is NaN. *)
Lemma silent_cmnd (frame : F32.t) (m M tau : Z) :
  silent frame -> 1 <= tau <= M -> F32.get (cmnd_table frame m M) tau = NaN.
Proof.
  intros Hs Ht. rewrite cmnd_table_get by assumption.
  destruct (silent_running_sum frame m M tau Hs) as [Hr | ->].
  - destruct (silent_diff_table frame m M Hs tau) as [Hd | ->].
    + now rewrite div_mul_zero_zero.
    + destruct (running_sum frame m M tau); try discriminate. reflexivity.
  - destruct (mul _ _); reflexivity.
Qed.

Lemma silent_first_below (frame : F32.t) (thr : number) (m M : Z) :
  silent frame -> lt thr one = true ->
  first_below (cmnd_table frame m M) thr m M = -1.
Proof.
  intros Hs Hthr.
  destruct (first_below_spec (cmnd_table frame m M) thr m M)
    as [[Hr _] | (Hr & H0 & Hlt & _)]; [exact Hr | exfalso].
  set (r := first_below (cmnd_table frame m M) thr m M) in *.
  destruct (Z.eq_dec r 0) as [Hr0 | Hr0].
  - rewrite Hr0, cmnd_table_get_0 in Hlt by lia.
    rewrite (lt_asym _ _ Hthr) in Hlt. discriminate.
  - rewrite (silent_cmnd frame m M r Hs) in Hlt by lia. discriminate.
Qed.

Lemma silent_yin_lags (frame : F32.t) (cfg : YinConfig) (m M : Z) :
  silent frame -> lt (threshold cfg) one = true ->
  yin_lags frame cfg m M = unvoiced.
Proof.
  intros Hs Hthr. unfold yin_lags.
  now rewrite (silent_first_below frame _ m M Hs Hthr).
Qed.

Lemma valid_config_fields (cfg : YinConfig) :
  valid_config cfg = true ->
  lt (threshold cfg) one = true /\
  lt zero (sampleRate cfg) = true /\
  lt zero (default (of_Z 50) (minFreq cfg)) = true /\
  lt zero (default (of_Z 1200) (maxFreq cfg)) = true.
Proof.
  unfold valid_config. rewrite !andb_true_iff.
  intros [[[[[[_ H1] _] _] H2] H3] H4].
  repeat split; try assumption. exact (lt_trans_zero _ _ H3 H4).
Qed.

(** ** The outcomes of the estimator *)

Lemma stalls_nonneg (m M N : Z) : 0 <= m -> stalls m M N = false.
Proof.
  intros Hm. unfold stalls.
  replace (m <? 0) with false by (symmetry; apply Z.ltb_ge; lia).
  now rewrite andb_false_r.
Qed.

(** With a valid configuration a call ends in one of three ways: the
    allocation throws, a lag bound is NaN or the smallest lag is +Infinity
    and the result is unvoiced, or the tables are computed for lags
    [0 <= m] and [0 <= M]. *)
Lemma yin_valid_cases (frame : F32.t) (cfg : YinConfig) :
  valid_config cfg = true ->
  yin frame cfg = Throws \/
  yin frame cfg = Returns unvoiced \/
  exists m M,
    0 <= m /\ 0 <= M /\
    to_integral (minLag cfg) = IInt m /\ to_integral (maxLag cfg) = IInt M /\
    yin frame cfg = Returns (yin_lags frame cfg m M).
Proof.
  intros Hv.
  destruct (valid_config_fields cfg Hv) as (Hthr & Hsr & Hmin & Hmax).
  pose proof (lag_nonneg _ _ Hsr Hmin) as HM.
  pose proof (lag_nonneg _ _ Hsr Hmax) as Hm.
  unfold yin. fold (maxLag cfg) in HM. fold (minLag cfg) in Hm.
  destruct (to_integral (maxLag cfg)) as [| s | M]; [now right; left | now left |].
  destruct ((M + 1 <? 0) || (MAX_LENGTH <? M + 1)); [now left |].
  destruct (to_integral (minLag cfg)) as [| s | m0];
    [now right; left | subst s; now right; left |].
  rewrite (stalls_nonneg m0 M _ Hm).
  right. right. exists m0, M. repeat apply conj; try assumption; reflexivity.
Qed.

(** The allocation is all that can throw, and it depends on [maxLag]
    alone. *)
Lemma yin_throws_maxLag (frame frame' : F32.t) (cfg cfg' : YinConfig) :
  maxLag cfg' = maxLag cfg -> yin frame cfg = Throws -> yin frame' cfg' = Throws.
Proof.
  intros HM. unfold yin. rewrite HM.
  destruct (to_integral (maxLag cfg)) as [| s | M]; [discriminate | reflexivity |].
  destruct ((M + 1 <? 0) || (MAX_LENGTH <? M + 1)); [reflexivity |].
  destruct (to_integral (minLag cfg)) as [| [] | m]; try discriminate.
  destruct (stalls _ _ _); discriminate.
Qed.

(** C6, as the code has it: on a frame of silence, with a valid
    configuration, a call that is not rejected by the allocation of the
    tables returns, and what it returns is the unvoiced result: [freqHz]
    absent, probability 0. *)
Theorem yin_silence_unvoiced (frame : F32.t) (cfg : YinConfig) :
  valid_config cfg = true ->
  silent frame ->
  yin frame cfg <> Throws ->
  yin frame cfg = Returns unvoiced.
Proof.
  intros Hv Hs Hnt.
  destruct (valid_config_fields cfg Hv) as (Hthr & _).
  destruct (yin_valid_cases frame cfg Hv)
    as [Ht | [Hu | (m & M & _ & _ & _ & _ & Hy)]];
    [now elim Hnt | exact Hu |].
  rewrite Hy. now rewrite silent_yin_lags.
Qed.

(** C6 fails as stated: a valid configuration does not keep the call from
    failing on silence.  With [minFreq = 5e-324] the largest lag is
    infinite, with sample rate 10^17 and [minFreq = 1] it is finite and
    above the largest length of a table; both calls throw. *)
Lemma yin_silence_rejected :
  valid_config cfg_tiny = true /\ valid_config cfg_huge = true /\
  silent silence16 /\
  is_infinite (maxLag cfg_tiny) = true /\
  to_integral (maxLag cfg_huge) = IInt (10 ^ 17) /\
  yin silence16 cfg_tiny = Throws /\
  yin silence16 cfg_huge = Throws.
Proof.
  assert (Hs : silent silence16) by (apply Forall_replicate; reflexivity).
  repeat apply conj; try exact Hs; computed.
Qed.

(** On a constant frame the running sum is zero at lag 3. *)
Lemma cmnd_zero_running_sum_is_nan_witness :
  F32.get (cmnd_table constant16 2 8) 3 = NaN /\
  forall threshold, lt (F32.get (cmnd_table constant16 2 8) 3) threshold = false.
Proof.
  apply (cmnd_zero_running_sum_is_nan constant16 2 8 3); [lia | reflexivity].
Defined.

(** C1 fails as stated: on the constant frame [constant16], with lags 2 to 8,
    the running sum at lag 3 is zero and [cmnd[3]] is NaN, not 0. *)
Lemma cmnd_constant_frame_not_zero :
  (to_integral (minLag cfg_small) = IInt 2 /\
   to_integral (maxLag cfg_small) = IInt 8 /\
   is_zero (running_sum constant16 2 8 3) = true /\
   F32.get (cmnd_table constant16 2 8) 3 = NaN) /\
  ~ (forall frame m M tau,
       1 <= tau <= M ->
       is_zero (running_sum frame m M tau) = true ->
       is_zero (F32.get (cmnd_table frame m M) tau) = true).
Proof.
  split; [repeat apply conj; computed |].
  intros H.
  assert (Hz : is_zero (running_sum constant16 2 8 3) = true)
    by computed.
  assert (Hc : is_zero (F32.get (cmnd_table constant16 2 8) 3) = false)
    by computed.
  rewrite (H constant16 2 8 3 ltac:(lia) Hz) in Hc. discriminate Hc.
Qed.

(** Sixteen samples of silence with lags 2 to 8. *)
Lemma yin_silence_unvoiced_witness : yin silence16 cfg_small = Returns unvoiced.
Proof.
  apply (yin_silence_unvoiced silence16 cfg_small).
  - computed.
  - apply Forall_replicate. reflexivity.
  - vm_compute. discriminate.
Defined.

(** C4, with the gate the code applies: when both lag bounds are integers
    and the call returns a result, either no lag from [minLag] to [maxLag]
    has [cmnd] below the threshold and the result is unvoiced with
    probability 0, or [tau] is the first such lag, the probability is
    [1 - cmnd[tau]] at that integer lag, and [freqHz] is [sampleRate / tau']
    for the refined lag [tau'] unless the probability is below
    [probabilityThreshold], in which case [freqHz] is absent. *)
Theorem yin_decision (frame : F32.t) (cfg : YinConfig) (m M : Z) (r : YinResult) :
  to_integral (minLag cfg) = IInt m ->
  to_integral (maxLag cfg) = IInt M ->
  yin frame cfg = Returns r ->
  let cmnd := cmnd_table frame m M in
  (r = unvoiced /\
   forall t, m <= t <= M -> lt (F32.get cmnd t) (threshold cfg) = false) \/
  (exists tau,
     m <= tau <= M /\
     lt (F32.get cmnd tau) (threshold cfg) = true /\
     (forall t, m <= t < tau -> lt (F32.get cmnd t) (threshold cfg) = false) /\
     let probability := sub one (F32.get cmnd tau) in
     r = {| freqHz := if lt probability (probabilityThreshold cfg) then None
                      else Some (div (sampleRate cfg) (betterTau cmnd m M tau));
            probability := probability |}).
Proof.
  intros Hm HM Hy cmnd. unfold yin in Hy. rewrite HM, Hm in Hy.
  destruct ((M + 1 <? 0) || (MAX_LENGTH <? M + 1)); [discriminate Hy |].
  destruct (stalls m M (frame_span frame M)); [discriminate Hy |].
  injection Hy as <-.
  unfold yin_lags. fold cmnd.
  destruct (first_below_spec cmnd (threshold cfg) m M)
    as [[Hr Hall] | (Hr & H0 & Hlt & Hall)].
  - left. rewrite Hr. split; [reflexivity | exact Hall].
  - right. exists (first_below cmnd (threshold cfg) m M).
    repeat split; try lia; try assumption.
    replace (first_below cmnd (threshold cfg) m M =? -1) with false
      by (symmetry; apply Z.eqb_neq; lia).
    cbv zeta. destruct (lt _ (probabilityThreshold cfg)); reflexivity.
Qed.

(** The decision on the sine tone with lags 2 to 8: lag 5 is found and the
    result is voiced. *)
Lemma yin_decision_witness :
  exists r,
    yin frame_sine cfg_small = Returns r /\
    let cmnd := cmnd_table frame_sine 2 8 in
    ((r = unvoiced /\
      forall t, 2 <= t <= 8 -> lt (F32.get cmnd t) (threshold cfg_small) = false) \/
     (exists tau,
        2 <= tau <= 8 /\
        lt (F32.get cmnd tau) (threshold cfg_small) = true /\
        (forall t, 2 <= t < tau -> lt (F32.get cmnd t) (threshold cfg_small) = false) /\
        let probability := sub one (F32.get cmnd tau) in
        r = {| freqHz := if lt probability (probabilityThreshold cfg_small) then None
                         else Some (div (sampleRate cfg_small) (betterTau cmnd 2 8 tau));
               probability := probability |})).
Proof.
  eexists. split; [computed |].
  apply (yin_decision frame_sine cfg_small 2 8); computed.
Defined.

(** C4 fails as stated: with a valid configuration whose probability gate is
    0.9, lag 5 of the sine tone [frame_sine] is the first lag below the
    threshold, and yet [freqHz] is absent: the probability [1 - cmnd[5]] is
    below the gate. *)
Lemma yin_gate_rejects_found_lag :
  (valid_config cfg_strict = true /\
   to_integral (minLag cfg_strict) = IInt 2 /\
   to_integral (maxLag cfg_strict) = IInt 8 /\
   first_below (cmnd_table frame_sine 2 8) (threshold cfg_strict) 2 8 = 5 /\
   yin frame_sine cfg_strict =
   Returns {| freqHz := None;
              probability := sub one (F32.get (cmnd_table frame_sine 2 8) 5) |}) /\
  ~ (forall frame cfg m M,
       valid_config cfg = true ->
       to_integral (minLag cfg) = IInt m ->
       to_integral (maxLag cfg) = IInt M ->
       let cmnd := cmnd_table frame m M in
       let tau := first_below cmnd (threshold cfg) m M in
       tau <> -1 ->
       yin frame cfg =
       Returns {| freqHz := Some (div (sampleRate cfg) (betterTau cmnd m M tau));
                  probability := sub one (F32.get cmnd tau) |}).
Proof.
  split; [repeat apply conj; computed |].
  intros H.
  assert (Hv : valid_config cfg_strict = true) by computed.
  assert (Hm : to_integral (minLag cfg_strict) = IInt 2) by computed.
  assert (HM : to_integral (maxLag cfg_strict) = IInt 8) by computed.
  assert (Ht : first_below (cmnd_table frame_sine 2 8) (threshold cfg_strict) 2 8 = 5)
    by computed.
  assert (Hy : exists p, yin frame_sine cfg_strict =
                         Returns {| freqHz := None; probability := p |})
    by (eexists; computed).
  destruct Hy as [p Hy].
  specialize (H frame_sine cfg_strict 2 8 Hv Hm HM). cbv zeta in H.
  rewrite Ht, Hy in H. specialize (H ltac:(discriminate)).
  set (f := div _ _) in H. set (q := sub _ _) in H. clearbody f q.
  discriminate H.
Qed.

Lemma is_infinite_iff (x : number) :
  is_infinite x = true <-> exists s, to_integral x = IInf s.
Proof.
  destruct x; simpl; split; try discriminate; try (intros [? ?]; discriminate); eauto.
Qed.

Lemma maxLag_zero_rate (cfg : YinConfig) :
  is_zero (sampleRate cfg) = true ->
  Math.isNaN (default (of_Z 50) (minFreq cfg)) = false ->
  is_zero (default (of_Z 50) (minFreq cfg)) = false ->
  to_integral (maxLag cfg) = IInt 0.
Proof.
  unfold maxLag. destruct (sampleRate cfg) as [s | | |]; try discriminate.
  destruct (default (of_Z 50) (minFreq cfg)) as [s' | s' | | s' m' e'];
    try discriminate; intros _ _ _; reflexivity.
Qed.

(** C2, as the code has it: nothing of the configuration is validated.  The
    one rejection is the RangeError of the allocation of the two tables of
    length [maxLag + 1]: it is raised whenever [maxLag] is infinite, below -1
    or above [MAX_LENGTH - 1], whatever the frame; it depends on
    [sampleRate] and [minFreq] alone, not on the frame, the two thresholds
    or [maxFreq], so that [minFreq >= maxFreq] plays no part in it; and a
    sample rate of zero is never rejected when [minFreq] is neither zero nor
    NaN. *)
Theorem yin_rejection_is_allocation (frame : F32.t) (cfg : YinConfig) :
  (is_infinite (maxLag cfg) = true \/
   (exists M, to_integral (maxLag cfg) = IInt M /\ (M < -1 \/ MAX_LENGTH - 1 < M)) ->
   yin frame cfg = Throws) /\
  (forall frame' cfg',
     sampleRate cfg' = sampleRate cfg -> minFreq cfg' = minFreq cfg ->
     yin frame cfg = Throws -> yin frame' cfg' = Throws) /\
  (is_zero (sampleRate cfg) = true ->
   Math.isNaN (default (of_Z 50) (minFreq cfg)) = false ->
   is_zero (default (of_Z 50) (minFreq cfg)) = false ->
   exists r, yin frame cfg = Returns r).
Proof.
  repeat apply conj.
  - rewrite is_infinite_iff. unfold yin.
    intros [[s Hs] | (M & HM & Hout)]; [now rewrite Hs |].
    rewrite HM.
    replace ((M + 1 <? 0) || (MAX_LENGTH <? M + 1)) with true; [reflexivity |].
    symmetry. apply orb_true_iff.
    destruct Hout; [left; apply Z.ltb_lt | right; apply Z.ltb_lt]; lia.
  - intros frame' cfg' Hsr Hmin. apply yin_throws_maxLag.
    unfold maxLag. now rewrite Hsr, Hmin.
  - intros Hz Hn Hnz. unfold yin.
    rewrite (maxLag_zero_rate cfg Hz Hn Hnz).
    assert (Hm : to_integral (minLag cfg) = INaN \/ to_integral (minLag cfg) = IInt 0).
    { unfold minLag. destruct (sampleRate cfg) as [s | | |]; try discriminate.
      destruct (default (of_Z 1200) (maxFreq cfg)) as [s' | s' | | s' m' e'];
        simpl; auto. }
    change ((0 + 1 <? 0) || (MAX_LENGTH <? 0 + 1)) with false. cbv iota.
    destruct Hm as [-> | ->]; [eauto |].
    rewrite stalls_nonneg by lia. eauto.
Qed.

(** The three parts at work: an infinite largest lag, the same sample rate
    and [minFreq] with another frame and [maxFreq] below [minFreq], and the
    defaults of the tracker at sample rate 0. *)
Lemma yin_rejection_is_allocation_witness :
  yin frame_sine cfg_tiny = Throws /\
  yin silence16
      {| threshold := threshold cfg_tiny;
         probabilityThreshold := probabilityThreshold cfg_tiny;
         sampleRate := sampleRate cfg_tiny; minFreq := minFreq cfg_tiny;
         maxFreq := Some zero |} = Throws /\
  exists r, yin frame_sine cfg_rate0 = Returns r.
Proof.
  repeat apply conj.
  - apply (proj1 (yin_rejection_is_allocation frame_sine cfg_tiny)).
    left. computed.
  - apply (proj1 (proj2 (yin_rejection_is_allocation frame_sine cfg_tiny)));
      computed.
  - apply (proj2 (proj2 (yin_rejection_is_allocation frame_sine cfg_rate0)));
      computed.
Defined.

(** C2 fails as stated: with sample rate 0, and with [minFreq = maxFreq],
    [yin] returns the unvoiced result instead of rejecting the call. *)
Lemma yin_accepts_malformed_config :
  (le (sampleRate cfg_rate0) zero = true /\
   yin frame_sine cfg_rate0 = Returns unvoiced /\
   ge (default (of_Z 50) (minFreq cfg_flat)) (default (of_Z 1200) (maxFreq cfg_flat)) = true /\
   yin frame_sine cfg_flat = Returns unvoiced) /\
  ~ (forall frame cfg,
       le (sampleRate cfg) zero = true \/
       ge (default (of_Z 50) (minFreq cfg)) (default (of_Z 1200) (maxFreq cfg)) = true ->
       yin frame cfg = Throws).
Proof.
  split; [repeat apply conj; computed |].
  intros H.
  assert (Hsr : le (sampleRate cfg_rate0) zero = true) by computed.
  assert (Hy : yin frame_sine cfg_rate0 = Returns unvoiced) by computed.
  rewrite (H frame_sine cfg_rate0 (or_introl Hsr)) in Hy. discriminate Hy.
Qed.

(** C5 fails on the code: [cfg_loose] is valid, and on the sine tone
    [frame_sine] the first lag below the threshold, 4, is not a local
    minimum of [cmnd]: the vertex of the parabola through lags 3, 4 and 5
    lies below zero, and [yin] returns a negative [freqHz]. *)
Theorem yin_negative_frequency :
  (valid_config cfg_loose = true /\
   to_integral (minLag cfg_loose) = IInt 2 /\
   to_integral (maxLag cfg_loose) = IInt 8 /\
   first_below (cmnd_table frame_sine 2 8) (threshold cfg_loose) 2 8 = 4 /\
   lt (betterTau (cmnd_table frame_sine 2 8) 2 8 4) zero = true /\
   exists f p,
     yin frame_sine cfg_loose = Returns {| freqHz := Some f; probability := p |} /\
     lt f zero = true) /\
  ~ (forall frame cfg r f,
       valid_config cfg = true ->
       yin frame cfg = Returns r -> freqHz r = Some f -> lt zero f = true).
Proof.
  split.
  - repeat apply conj; try computed.
    eexists _, _. split; computed.
  - intros H.
    assert (Hr : exists r f, yin frame_sine cfg_loose = Returns r /\ freqHz r = Some f /\
                             lt zero f = false).
    { eexists _, _. repeat apply conj; computed. }
    destruct Hr as (r & f & Hy & Hf & Hlt).
    assert (Hv : valid_config cfg_loose = true) by computed.
    rewrite (H frame_sine cfg_loose r f Hv Hy Hf) in Hlt. discriminate Hlt.
Qed.

(** ** The tracker *)

Import Tracker.











(** ** Smoothing in the tracker *)

Lemma ema_unset_run_callback (data : F32.t) (now : number) (w w' : World) :
  ema_unset w -> run_callback data now w = Returns w' -> ema_unset w'.
Proof.
  unfold run_callback, tick.
  destruct (yin data _) as [res | |]; intros Hinv H; try discriminate.
  - injection H as <-. unfold ema_unset. simpl.
    destruct (freqHz res) as [f |]; simpl.
    + right. apply Exists_app. right. constructor. simpl. discriminate.
    + destruct Hinv as [Hn | He]; [now left |].
      right. apply Exists_app. now left.
  - injection H as <-. exact Hinv.
Qed.

Lemma ema_unset_run_callbacks (pending : list Z) (data : F32.t) (now : number) :
  forall w w', ema_unset w -> run_callbacks pending data now w = Returns w' -> ema_unset w'.
Proof.
  induction pending as [| h rest IH]; intros w w' Hinv H; simpl in H.
  - injection H as <-. exact Hinv.
  - destruct (run_callback data now w) as [w1 | |] eqn:H1; try discriminate.
    eapply IH; [| exact H]. eapply ema_unset_run_callback; eassumption.
Qed.

Lemma ema_unset_run (es : list event) : forall w w',
  ema_unset w -> run es w = Returns w' -> ema_unset w'.
Proof.
  induction es as [| e es IH]; intros w w' Hinv H; simpl in H.
  - injection H as <-. exact Hinv.
  - destruct (step w e) as [w1 | |] eqn:H1; try discriminate.
    eapply IH; [| exact H].
    destruct e as [offset now | | data now]; simpl in H1.
    + injection H1 as <-. exact Hinv.
    + injection H1 as <-. unfold ema_unset, stop in *.
      destruct (rafId (tracker w)); exact Hinv.
    + eapply ema_unset_run_callbacks; [| exact H1]. exact Hinv.
Qed.

Lemma ema_unset_none (es : list event) (sr : number) (c : PartialConfig) (w : World) :
  run es (construct sr c) = Returns w ->
  Forall (fun p => freq p = None) (emitted w) ->
  lastEma (tracker w) = None.
Proof.
  intros Hrun Hall.
  assert (Hinit : ema_unset (construct sr c)) by now left.
  destruct (ema_unset_run es _ _ Hinit Hrun) as [H | H]; [exact H |].
  exfalso. rewrite Forall_forall in Hall. apply Exists_exists in H as (p & Hin & Hp).
  now apply Hp, Hall.
Qed.

Lemma tick_unsmoothed (t : PitchTracker) (sr : number) (data : F32.t) (now : number)
    (res : YinResult) (f : number) :
  lastEma t = None ->
  yin data (yin_config t sr) = Returns res ->
  freqHz res = Some f ->
  tick t sr data now =
  Returns ({| rafId := rafId t; startedAt := startedAt t; lastEma := Some f;
              startOffset := startOffset t; cfg := cfg t |},
           {| tSec := sub now (startedAt t); freq := Some f; prob := probability res |}).
Proof.
  intros Hema Hyin Hf. unfold tick. rewrite Hyin, Hf, Hema. reflexivity.
Qed.

(** C10: [ema] returns [next] when [prev] is absent or not finite; a tracker
    that has only passed on unvoiced points since its construction has no
    smoothing state; from such a state a tick passes a voiced estimate on as
    it is, and makes it the smoothing state; so when such a tracker hears a
    voiced frame in its pending tick, the point it passes on, its first
    voiced one, carries the estimated frequency itself. *)
Theorem ema_first_sample_identity :
  (forall prev next alpha,
     prev = None \/ (exists p, prev = Some p /\ isFinite p = false) ->
     ema prev next alpha = next) /\
  (forall es sr c w,
     run es (construct sr c) = Returns w ->
     Forall (fun p => freq p = None) (emitted w) ->
     lastEma (tracker w) = None) /\
  (forall t sr data now res f,
     lastEma t = None ->
     yin data (yin_config t sr) = Returns res ->
     freqHz res = Some f ->
     exists t',
       tick t sr data now =
       Returns (t', {| tSec := sub now (startedAt t); freq := Some f;
                       prob := probability res |}) /\
       lastEma t' = Some f) /\
  (forall es sr c w h data now res f,
     run es (construct sr c) = Returns w ->
     Forall (fun p => freq p = None) (emitted w) ->
     callbacks w = [h] ->
     yin data (yin_config (tracker w) (acSampleRate w)) = Returns res ->
     freqHz res = Some f ->
     exists w',
       step w (Frame data now) = Returns w' /\
       emitted w' =
       emitted w ++ [ {| tSec := sub now (startedAt (tracker w)); freq := Some f;
                         prob := probability res |} ]).
Proof.
  split; [| split; [| split]].
  - intros prev next alpha [-> | (p & -> & Hp)]; simpl; [reflexivity |].
    now rewrite Hp.
  - exact ema_unset_none.
  - intros t sr data now res f Hema Hyin Hf.
    rewrite (tick_unsmoothed t sr data now res f Hema Hyin Hf).
    eexists. split; reflexivity.
  - intros es sr c w h data now res f Hrun Hall Hcb Hyin Hf.
    pose proof (ema_unset_none es sr c w Hrun Hall) as Hema.
    unfold step, animation_frame. rewrite Hcb. simpl run_callbacks.
    unfold run_callback. simpl tracker. simpl acSampleRate.
    rewrite (tick_unsmoothed _ _ data now res f Hema Hyin Hf).
    simpl. eexists. split; reflexivity.
Qed.

(** The first tick of a new tracker on a square wave: 50 Hz, unsmoothed. *)
Lemma ema_first_sample_identity_witness :
  ema None (of_Z 50) c0_25 = of_Z 50 /\
  exists t',
    tick (tracker (construct rate100 no_options)) rate100 square4 (of_Z 1) =
    Returns (t', {| tSec := sub (of_Z 1) zero; freq := Some (of_Z 50);
                    prob := of_Z 1 |}) /\
    lastEma t' = Some (of_Z 50).
Proof.
  split.
  - apply (proj1 ema_first_sample_identity). left. reflexivity.
  - apply (proj1 (proj2 (proj2 ema_first_sample_identity))
             (tracker (construct rate100 no_options)) rate100 square4 (of_Z 1)
             {| freqHz := Some (of_Z 50); probability := of_Z 1 |} (of_Z 50));
      vm_compute; reflexivity.
Defined.

(** ** The two segmentations *)

Import Segment.

(** The window loop is done within [length ch0] turns: more fuel changes
    nothing. *)
Lemma f0_loop_fuel (ch0 : F32.t) (sr : number) (fuel : nat) : forall fuel' i,
  0 <= i -> F32.length ch0 - i <= Z.of_nat fuel -> (fuel <= fuel')%nat ->
  f0_loop fuel' ch0 sr i = f0_loop fuel ch0 sr i.
Proof.
  induction fuel as [| fuel IH]; intros fuel' i Hi Hlen Hle.
  - destruct fuel' as [| fuel']; [reflexivity |]. simpl.
    replace (i + FRAME_SIZE <? F32.length ch0) with false; [reflexivity |].
    symmetry. apply Z.ltb_ge. unfold FRAME_SIZE. lia.
  - destruct fuel' as [| fuel']; [lia |]. simpl.
    destruct (i + FRAME_SIZE <? F32.length ch0); [| reflexivity].
    destruct (yin _ _); try reflexivity.
    rewrite (IH fuel' (i + HOP_SIZE)); [reflexivity | | | lia];
      unfold HOP_SIZE; lia.
Qed.

Section SegmentFacts.

Context {Id1 Id2 : Type}.
Variable log2 : number -> number.
Variable uuid1 : nat -> Id1.
Variable uuid2 : nat -> Id2.

Lemma close_note_fields (notes1 : list (Note Id1)) (notes2 : list (Note Id2))
    (s d m : number) :
  map fields notes1 = map fields notes2 ->
  map fields (close_note uuid1 notes1 s d m) = map fields (close_note uuid2 notes2 s d m).
Proof.
  intros H. unfold close_note, push. destruct (ge d c0_08); [| exact H].
  rewrite !map_app, H. reflexivity.
Qed.

Lemma step_related (frameDur : number) (i : Z) (hz : number) st1 st2 :
  seg_related st1 st2 ->
  seg_related (extractor_step log2 uuid1 frameDur i hz st1)
              (generator_step log2 uuid2 frameDur i hz st2).
Proof.
  destruct st1 as [[notes1 curStart1] curMidi1], st2 as [[notes2 curStart2] curMidi2].
  intros (Hn & Hm & Hs). subst curMidi2.
  unfold extractor_step, generator_step, hzToMidiNumber.
  destruct (isFinite hz); simpl negb; cbv iota.
  - destruct curMidi1 as [cm |].
    + rewrite <- (Hs ltac:(discriminate)).
      destruct (gt _ zero).
      * repeat split. now apply close_note_fields.
      * repeat split; auto.
    + repeat split. exact Hn.
  - destruct curMidi1 as [cm |].
    + rewrite <- (Hs ltac:(discriminate)).
      repeat split; [now apply close_note_fields | intros H; now elim H].
    + repeat split; auto.
Qed.

Lemma loop_related (frameDur : number) (f0Med : list number) : forall i st1 st2,
  seg_related st1 st2 ->
  seg_related (extractor_loop log2 uuid1 frameDur f0Med i st1)
              (generator_loop log2 uuid2 frameDur f0Med i st2).
Proof.
  induction f0Med as [| hz rest IH]; intros i st1 st2 H; simpl; [exact H |].
  apply IH, step_related, H.
Qed.

Lemma segment_fields (sr : number) (f0Med : list number) :
  map fields (extractor_segment log2 uuid1 sr f0Med) =
  map fields (generator_segment log2 uuid2 sr f0Med).
Proof.
  unfold extractor_segment, generator_segment.
  pose proof (loop_related (div (of_Z HOP_SIZE) sr) f0Med 0
                ([], zero, None) ([], of_Z (-1), None)) as H.
  destruct (extractor_loop _ _ _ _ _ _) as [[notes1 curStart1] curMidi1].
  destruct (generator_loop _ _ _ _ _ _) as [[notes2 curStart2] curMidi2].
  destruct H as (Hn & Hm & Hs); [repeat split; auto; intros H; now elim H |].
  subst curMidi2. destruct curMidi1 as [cm |]; [| exact Hn].
  rewrite <- (Hs ltac:(discriminate)). now apply close_note_fields.
Qed.

End SegmentFacts.

(** C8: for every channel and sample rate, whatever [Math.log2] is and
    whatever identifiers are drawn, the two components produce the same notes
    up to the identifiers: the same number of notes, with the same start,
    duration and midi at every position (or both fail). *)
Theorem segmentations_agree {Id1 Id2 : Type} (log2 : number -> number)
    (uuid1 : nat -> Id1) (uuid2 : nat -> Id2) (ch0 : F32.t) (sr : number) :
  outcome_map (map fields) (handleFile log2 uuid1 ch0 sr) =
  outcome_map (map fields) (analyzePart log2 uuid2 ch0 sr).
Proof.
  unfold handleFile, analyzePart.
  destruct (f0_track ch0 sr) as [f0 | |]; simpl; try reflexivity.
  f_equal. apply segment_fields.
Qed.

(** ** The notes of a segmentation *)

Lemma sequential_weaken (l : list (Z * Z)) : forall lo hi hi',
  sequential lo hi l -> hi <= hi' -> sequential lo hi' l.
Proof.
  induction l as [| [a b] l IH]; intros lo hi hi' H Hle; simpl in *; [lia |].
  destruct H as (? & ? & H). repeat split; try assumption. eapply IH; eassumption.
Qed.

Lemma sequential_snoc (l : list (Z * Z)) : forall lo a b,
  sequential lo a l -> a < b -> sequential lo b (l ++ [(a, b)]).
Proof.
  induction l as [| [a' b'] l IH]; intros lo a b H Hab; simpl in *.
  - repeat split; lia.
  - destruct H as (? & ? & H). repeat split; try assumption. now apply IH.
Qed.

Section Notes.

Context {Id : Type}.
Variable log2 : number -> number.
Variable randomUUID : nat -> Id.
Variable frameDur : number.

Lemma close_note_ok (notes : list (Note Id)) (sp : list (Z * Z)) (a b : Z) (cm : number) :
  Forall long_enough notes ->
  Forall2 (spans frameDur) notes sp ->
  sequential 0 a sp -> 0 <= a < b ->
  let notes' := close_note randomUUID notes (mul (of_Z a) frameDur)
                  (sub (mul (of_Z b) frameDur) (mul (of_Z a) frameDur)) cm in
  Forall long_enough notes' /\
  exists sp', Forall2 (spans frameDur) notes' sp' /\ sequential 0 b sp'.
Proof.
  intros Hd Hsp Hseq Hab. unfold close_note, push.
  destruct (ge _ c0_08) eqn:Hge.
  - split.
    + apply Forall_app. split; [exact Hd |]. constructor; [exact Hge | constructor].
    + exists (sp ++ [(a, b)]). split.
      * apply Forall2_app; [exact Hsp |]. constructor; [| constructor].
        split; reflexivity.
      * apply sequential_snoc; [exact Hseq | lia].
  - split; [exact Hd |]. exists sp. split; [exact Hsp |].
    eapply sequential_weaken; [exact Hseq | lia].
Qed.

Lemma extractor_step_ok (i : Z) (hz : number) (st : seg_state) :
  0 <= i -> notes_ok frameDur i st ->
  notes_ok frameDur (i + 1) (extractor_step log2 randomUUID frameDur i hz st).
Proof.
  destruct st as [[notes curStart] curMidi]. intros Hi (Hd & sp & Hsp & Hcur).
  unfold extractor_step.
  destruct (hzToMidiNumber log2 hz) as [m |]; destruct curMidi as [cm |].
  - destruct Hcur as (a & Ha & -> & Hseq).
    destruct (gt _ zero).
    + destruct (close_note_ok notes sp a i cm Hd Hsp Hseq ltac:(lia)) as (Hd' & sp' & Hsp' & Hseq').
      split; [exact Hd' |]. exists sp'. split; [exact Hsp' |].
      exists i. repeat split; try lia; assumption.
    + split; [exact Hd |]. exists sp. split; [exact Hsp |].
      exists a. repeat split; try lia; assumption.
  - split; [exact Hd |]. exists sp. split; [exact Hsp |].
    exists i. repeat split; try lia; assumption.
  - destruct Hcur as (a & Ha & -> & Hseq).
    destruct (close_note_ok notes sp a i cm Hd Hsp Hseq ltac:(lia)) as (Hd' & sp' & Hsp' & Hseq').
    split; [exact Hd' |]. exists sp'. split; [exact Hsp' |].
    eapply sequential_weaken; [exact Hseq' | lia].
  - split; [exact Hd |]. exists sp. split; [exact Hsp |].
    eapply sequential_weaken; [exact Hcur | lia].
Qed.

Lemma extractor_loop_ok (f0Med : list number) : forall i st,
  0 <= i -> notes_ok frameDur i st ->
  notes_ok frameDur (i + Z.of_nat (length f0Med))
           (extractor_loop log2 randomUUID frameDur f0Med i st).
Proof.
  induction f0Med as [| hz rest IH]; intros i st Hi H; simpl extractor_loop.
  - simpl length. now rewrite Z.add_0_r.
  - replace (i + Z.of_nat (length (hz :: rest))) with (i + 1 + Z.of_nat (length rest))
      by (simpl length; lia).
    apply IH; [lia |]. now apply extractor_step_ok.
Qed.

End Notes.

Lemma extractor_segment_ok {Id : Type} (log2 : number -> number)
    (randomUUID : nat -> Id) (sr : number) (f0Med : list number) :
  let notes := extractor_segment log2 randomUUID sr f0Med in
  Forall long_enough notes /\
  exists sp, Forall2 (spans (div (of_Z HOP_SIZE) sr)) notes sp /\
             sequential 0 (Z.of_nat (length f0Med)) sp.
Proof.
  unfold extractor_segment.
  pose proof (extractor_loop_ok log2 randomUUID (div (of_Z HOP_SIZE) sr) f0Med 0
                ([], zero, None) ltac:(lia)) as H.
  destruct (extractor_loop _ _ _ _ _ _) as [[notes curStart] curMidi].
  destruct H as (Hd & sp & Hsp & Hcur).
  { split; [constructor |]. exists []. split; [constructor | simpl; lia]. }
  rewrite Z.add_0_l in Hcur. destruct curMidi as [cm |].
  - destruct Hcur as (a & Ha & -> & Hseq).
    exact (close_note_ok randomUUID _ notes sp a _ cm Hd Hsp Hseq Ha).
  - split; [exact Hd |]. exists sp. split; assumption.
Qed.

(** The properties of a list of notes depend on the fields only. *)
Lemma notes_ok_fields {Id1 Id2 : Type} (frameDur : number)
    (notes1 : list (Note Id1)) (notes2 : list (Note Id2)) (sp : list (Z * Z)) :
  map fields notes1 = map fields notes2 ->
  Forall long_enough notes1 ->
  Forall2 (spans frameDur) notes1 sp ->
  Forall long_enough notes2 /\
  Forall2 (spans frameDur) notes2 sp.
Proof.
  revert notes2 sp.
  induction notes1 as [| n1 notes1 IH]; intros [| n2 notes2] sp Hf Hd Hsp;
    try discriminate.
  - inversion Hsp; subst. split; constructor.
  - simpl in Hf. injection Hf as Hs Hdur _ Hrest.
    inversion Hd; subst. inversion Hsp as [| ? ab ? sp' Hab Hsp']; subst.
    destruct (IH notes2 sp' Hrest) as [Hd2 Hsp2]; try assumption.
    split; constructor; try assumption.
    + unfold long_enough in *. now rewrite <- Hdur.
    + unfold spans in *. now rewrite <- Hs, <- Hdur.
Qed.

(** C7, as the code has it: every note either component produces lasts at
    least 0.08 s, and the notes lie on frame ranges that follow one another:
    each note starts at the time of a frame [a] and ends at the time of a
    later frame [b], and the next note starts at frame [b] or later. *)
Theorem notes_long_and_sequential {Id : Type} (log2 : number -> number)
    (randomUUID : nat -> Id) (ch0 : F32.t) (sr : number) (notes : list (Note Id)) :
  handleFile log2 randomUUID ch0 sr = Returns notes \/
  analyzePart log2 randomUUID ch0 sr = Returns notes ->
  Forall long_enough notes /\
  exists sp frames,
    Forall2 (spans (div (of_Z HOP_SIZE) sr)) notes sp /\ sequential 0 frames sp.
Proof.
  unfold handleFile, analyzePart.
  destruct (f0_track ch0 sr) as [f0 | |];
    intros [H | H]; try discriminate; injection H as <-.
  - destruct (extractor_segment_ok log2 randomUUID sr (f0_median f0)) as (Hd & sp & Hsp & Hseq).
    split; [exact Hd |]. now exists sp, (Z.of_nat (length (f0_median f0))).
  - destruct (extractor_segment_ok log2 randomUUID sr (f0_median f0)) as (Hd & sp & Hsp & Hseq).
    destruct (notes_ok_fields _ _ _ sp
                (segment_fields log2 randomUUID randomUUID sr (f0_median f0)) Hd Hsp)
      as [Hd2 Hsp2].
    split; [exact Hd2 |]. now exists sp, (Z.of_nat (length (f0_median f0))).
Qed.

(** Two tones after a silence give two notes. *)
Lemma notes_long_and_sequential_witness :
  exists notes : list (Note nat),
    handleFile log2_floor (fun k => k) two_tone_channel rate200 = Returns notes /\
    length notes = 2%nat /\
    Forall long_enough notes /\
    exists sp frames,
      Forall2 (spans (div (of_Z HOP_SIZE) rate200)) notes sp /\ sequential 0 frames sp.
Proof.
  eexists. split; [computed |]. split; [reflexivity |].
  refine (notes_long_and_sequential log2_floor (fun k => k) two_tone_channel
            rate200 _ (or_introl _)).
  vm_compute. reflexivity.
Defined.

(** ** Notes that overlap by a rounding *)

Lemma two_tone_track :
  f0_track two_tone_channel rate200 =
  Returns (replicate 7 None ++ replicate 4 (Some tone1_hz) ++ replicate 4 (Some tone2_hz)).
Proof. computed. Qed.

Lemma two_tone_median :
  f0_median (replicate 7 None ++ replicate 4 (Some tone1_hz) ++ replicate 4 (Some tone2_hz)) =
  two_tone_f0Med.
Proof. computed. Qed.

Lemma abs_sub_self (q : number) : gt (abs (sub q q)) zero = false.
Proof.
  destruct q as [s | s | | s m e]; try (destruct s; reflexivity); try reflexivity.
  unfold sub, SFsub. rewrite Z.sub_diag. reflexivity.
Qed.

Section TwoTones.

Context {Id : Type}.
Variable log2 : number -> number.
Variable randomUUID : nat -> Id.
Variable frameDur : number.

(** The pitch a voiced frame is quantised to. *)
Let pitch (hz : number) : number := round (add c69 (mul c12 (log2 (div hz c440)))).

Lemma extractor_loop_idle (v : number) (k : nat) : forall i rest notes curStart,
  isFinite v = false ->
  extractor_loop log2 randomUUID frameDur (replicate k v ++ rest) i (notes, curStart, None) =
  extractor_loop log2 randomUUID frameDur rest (i + Z.of_nat k) (notes, curStart, None).
Proof.
  induction k as [| k IH]; intros i rest notes curStart Hv.
  - simpl. now rewrite Z.add_0_r.
  - cbn [replicate app extractor_loop]. unfold extractor_step at 1, hzToMidiNumber.
    rewrite Hv. cbn [negb]. cbv iota. rewrite IH by exact Hv. f_equal. lia.
Qed.

Lemma extractor_loop_hold (hz cm : number) (k : nat) : forall i rest notes curStart,
  isFinite hz = true ->
  gt (abs (sub (pitch hz) cm)) zero = false ->
  extractor_loop log2 randomUUID frameDur (replicate k hz ++ rest) i
                 (notes, curStart, Some cm) =
  extractor_loop log2 randomUUID frameDur rest (i + Z.of_nat k) (notes, curStart, Some cm).
Proof.
  induction k as [| k IH]; intros i rest notes curStart Hv Hsame.
  - simpl. now rewrite Z.add_0_r.
  - cbn [replicate app extractor_loop]. unfold extractor_step at 1, hzToMidiNumber.
    rewrite Hv. cbn [negb]. cbv iota. fold (pitch hz). rewrite Hsame.
    rewrite IH by assumption. f_equal. lia.
Qed.

Lemma extractor_step_open (hz : number) (i : Z) (notes : list (Note Id)) (curStart : number) :
  isFinite hz = true ->
  extractor_step log2 randomUUID frameDur i hz (notes, curStart, None) =
  (notes, mul (of_Z i) frameDur, Some (pitch hz)).
Proof. intros Hv. unfold extractor_step, hzToMidiNumber. now rewrite Hv. Qed.

Lemma extractor_step_change (hz cm : number) (i : Z) (notes : list (Note Id))
    (curStart : number) :
  isFinite hz = true ->
  gt (abs (sub (pitch hz) cm)) zero = true ->
  extractor_step log2 randomUUID frameDur i hz (notes, curStart, Some cm) =
  (close_note randomUUID notes curStart (sub (mul (of_Z i) frameDur) curStart) cm,
   mul (of_Z i) frameDur, Some (pitch hz)).
Proof.
  intros Hv Hd. unfold extractor_step, hzToMidiNumber. rewrite Hv. cbn [negb]. cbv iota.
  fold (pitch hz). now rewrite Hd.
Qed.

(** A track of [a] unvoiced frames, then frames of one pitch up to frame
    [b], then frames of another up to frame [c]. *)
Lemma extractor_loop_two_tones (a k1 k2 : nat) (hz1 hz2 : number) :
  isFinite hz1 = true -> isFinite hz2 = true ->
  gt (abs (sub (pitch hz2) (pitch hz1))) zero = true ->
  extractor_loop log2 randomUUID frameDur
    (replicate a NaN ++ replicate (S k1) hz1 ++ replicate (S k2) hz2) 0 ([], zero, None) =
  (close_note randomUUID [] (mul (of_Z (Z.of_nat a)) frameDur)
     (sub (mul (of_Z (Z.of_nat a + 1 + Z.of_nat k1)) frameDur)
          (mul (of_Z (Z.of_nat a)) frameDur)) (pitch hz1),
   mul (of_Z (Z.of_nat a + 1 + Z.of_nat k1)) frameDur, Some (pitch hz2)).
Proof.
  intros H1 H2 Hd.
  rewrite extractor_loop_idle by reflexivity. rewrite Z.add_0_l.
  cbn [replicate app extractor_loop]. rewrite extractor_step_open by exact H1.
  rewrite extractor_loop_hold by (try exact H1; apply abs_sub_self).
  cbn [replicate app extractor_loop]. rewrite extractor_step_change by assumption.
  rewrite <- (app_nil_r (replicate k2 hz2)).
  rewrite extractor_loop_hold by (try exact H2; apply abs_sub_self).
  reflexivity.
Qed.

End TwoTones.

(** C7 fails as stated.  On [two_tone_channel] at sample rate 200, whatever
    [Math.log2] is as long as it tells the pitches of the two tones apart,
    [handleFile] returns two notes, on frames 4 to 11 and 11 to 15; the end
    [start + duration] of the first, 28.160000000000004, is above the start
    of the second, 28.16: in binary64 the two notes overlap.  The coarse
    logarithm is one that tells the two pitches apart, and with it
    [analyzePart] returns the same two notes. *)
Lemma adjacent_notes_overlap :
  (forall (log2 : number -> number) (randomUUID : nat -> nat),
     gt (abs (sub (round (add c69 (mul c12 (log2 (div tone2_hz c440)))))
                  (round (add c69 (mul c12 (log2 (div tone1_hz c440))))))) zero = true ->
     exists n1 n2,
       handleFile log2 randomUUID two_tone_channel rate200 = Returns [n1; n2] /\
       gt (add (start n1) (duration n1)) (start n2) = true) /\
  (exists n1 n2,
     handleFile log2_floor (fun k => k) two_tone_channel rate200 = Returns [n1; n2] /\
     analyzePart log2_floor (fun k => k) two_tone_channel rate200 = Returns [n1; n2] /\
     gt (add (start n1) (duration n1)) (start n2) = true).
Proof.
  split.
  - intros log2 randomUUID Hd.
    unfold handleFile. rewrite two_tone_track, two_tone_median.
    unfold extractor_segment, two_tone_f0Med.
    rewrite (extractor_loop_two_tones log2 randomUUID _ 4 6 3 tone1_hz tone2_hz
               eq_refl eq_refl Hd).
    set (q1 := round (add c69 (mul c12 (log2 (div tone1_hz c440))))).
    set (q2 := round (add c69 (mul c12 (log2 (div tone2_hz c440))))).
    clearbody q1 q2. clear Hd.
    eexists _, _. split; [vm_compute; reflexivity | vm_compute; reflexivity].
  - eexists _, _. repeat apply conj; computed.
Qed.

(** * More of the code *)

Import MedianWindow.

(** ** The median filter *)

Lemma insert_sorted_perm (x : number) (l : list number) :
  insert_sorted x l ≡ₚ x :: l.
Proof.
  induction l as [| y l IH]; simpl; [reflexivity |].
  destruct (lt (sub x y) zero); [reflexivity |].
  rewrite IH. apply Permutation_swap.
Qed.

Lemma sort_numbers_perm (l : list number) : sort_numbers l ≡ₚ l.
Proof.
  unfold sort_numbers.
  assert (H : forall acc, foldl (fun acc x => insert_sorted x acc) acc l ≡ₚ acc ++ l).
  { induction l as [| x l IH]; intros acc; simpl.
    - now rewrite app_nil_r.
    - rewrite IH, insert_sorted_perm. simpl. apply Permutation_middle. }
  apply (H []).
Qed.

(** With both bounds inside the array, [slice] holds the elements from
    [start] up to [end_]. *)
Lemma slice_elem_of {A : Type} (arr : list A) (start end_ : Z) (x : A) :
  0 <= start -> 0 <= end_ <= Z.of_nat (length arr) ->
  x ∈ slice arr start end_ <->
  exists j : nat, start <= Z.of_nat j < end_ /\ arr !! j = Some x.
Proof.
  intros Hs He. unfold slice.
  replace (start <? 0) with false by (symmetry; apply Z.ltb_ge; lia).
  replace (end_ <? 0) with false by (symmetry; apply Z.ltb_ge; lia).
  rewrite list_elem_of_lookup. split.
  - intros [k Hk]. apply lookup_take_Some in Hk as [Hk Hlt].
    rewrite lookup_drop in Hk. exists (Z.to_nat (Z.min start (Z.of_nat (length arr))) + k)%nat.
    split; [| exact Hk].
    apply lookup_lt_Some in Hk. lia.
  - intros (j & Hj & Hx). pose proof (lookup_lt_Some _ _ _ Hx) as Hlen.
    exists (j - Z.to_nat start)%nat. apply lookup_take_Some. split; [| lia].
    rewrite lookup_drop. rewrite <- Hx. f_equal. lia.
Qed.

Lemma median_at_window (arr : list number) (hw : Z) (i : nat) :
  0 <= hw -> (i < length arr)%nat ->
  let v := median_at arr hw (Z.of_nat i) in
  (v = NaN /\
   forall (j : nat) x, Z.abs (Z.of_nat j - Z.of_nat i) <= hw -> arr !! j = Some x ->
                       isFinite x = false) \/
  (isFinite v = true /\
   exists j : nat, Z.abs (Z.of_nat j - Z.of_nat i) <= hw /\ arr !! j = Some v).
Proof.
  intros Hhw Hi. unfold median_at.
  set (start := Z.max 0 (Z.of_nat i - hw)).
  set (end_ := Z.min (Z.of_nat (length arr)) (Z.of_nat i + hw + 1)).
  assert (Hin : forall x, x ∈ slice arr start end_ <->
                 exists j : nat, start <= Z.of_nat j < end_ /\ arr !! j = Some x)
    by (intros x; apply slice_elem_of; lia).
  destruct (filter (fun v => isFinite v = true) (slice arr start end_)) as [| y l] eqn:Hf.
  - left. split; [reflexivity |]. intros j x Hj Hx.
    destruct (isFinite x) eqn:Hfin; [exfalso | reflexivity].
    assert (Hmem : x ∈ filter (fun v => isFinite v = true) (slice arr start end_)).
    { apply list_elem_of_filter. split; [exact Hfin |]. apply Hin. exists j.
      split; [| exact Hx]. apply lookup_lt_Some in Hx. lia. }
    rewrite Hf in Hmem. inversion Hmem.
  - right. rewrite <- Hf.
    set (win := filter (fun v => isFinite v = true) (slice arr start end_)) in *.
    assert (Hlen : (0 < length win)%nat) by (rewrite Hf; simpl; lia).
    destruct (sort_numbers win !! Z.to_nat (Z.of_nat (length win) / 2)) as [v |] eqn:Hv.
    + simpl. assert (Hmem : v ∈ win).
      { rewrite <- (sort_numbers_perm win). eapply list_elem_of_lookup_2, Hv. }
      apply list_elem_of_filter in Hmem as [Hfin Hmem]. split; [exact Hfin |].
      apply Hin in Hmem as (j & Hj & Hx). exists j. split; [lia | exact Hx].
    + exfalso. apply lookup_ge_None in Hv.
      rewrite (Permutation_length (sort_numbers_perm win)) in Hv.
      assert (Z.of_nat (length win) / 2 < Z.of_nat (length win))
        by (apply Z.div_lt; lia).
      lia.
Qed.

Lemma half_width_nonneg (win : Z) : 0 <= win -> 0 <= half_width win.
Proof.
  intros H. unfold half_width. apply Z.div_pos; [| lia].
  destruct (Z.rem win 2 =? 1); lia.
Qed.

Lemma medianFilter_lookup (arr : list number) (win : Z) (i : nat) (v : number) :
  medianFilter arr win !! i = Some v <->
  (i < length arr)%nat /\ v = median_at arr (half_width win) (Z.of_nat i).
Proof.
  unfold medianFilter. fold (half_width win). rewrite list_lookup_fmap. split.
  - intros H. destruct (seq 0 (length arr) !! i) as [k |] eqn:Hk; [| discriminate].
    apply lookup_seq in Hk as [-> Hlt]. simpl in H. injection H as <-. now split.
  - intros [Hlt ->]. rewrite (lookup_seq_lt _ _ _ Hlt). reflexivity.
Qed.

(** X1: the filter keeps the length, and for a window width [win >= 0] each
    output is a finite sample found within [half_width win] places of its
    position, or NaN when there is no finite sample there. *)
Theorem medianFilter_window_sample (arr : list number) (win : Z) :
  0 <= win ->
  length (medianFilter arr win) = length arr /\
  forall (i : nat) v,
    medianFilter arr win !! i = Some v ->
    (v = NaN /\
     forall (j : nat) x,
       Z.abs (Z.of_nat j - Z.of_nat i) <= half_width win -> arr !! j = Some x ->
       isFinite x = false) \/
    (isFinite v = true /\
     exists j : nat,
       Z.abs (Z.of_nat j - Z.of_nat i) <= half_width win /\ arr !! j = Some v).
Proof.
  intros Hwin. split; [apply medianFilter_length |].
  intros i v Hv. apply medianFilter_lookup in Hv as [Hlt ->].
  apply median_at_window; [now apply half_width_nonneg | exact Hlt].
Qed.

Lemma medianFilter_window_sample_witness :
  length (medianFilter (map of_Z [100; 100; 900; 100; 100]) 3) = 5%nat /\
  forall (i : nat) v,
    medianFilter (map of_Z [100; 100; 900; 100; 100]) 3 !! i = Some v ->
    (v = NaN /\
     forall (j : nat) x,
       Z.abs (Z.of_nat j - Z.of_nat i) <= half_width 3 ->
       map of_Z [100; 100; 900; 100; 100] !! j = Some x ->
       isFinite x = false) \/
    (isFinite v = true /\
     exists j : nat,
       Z.abs (Z.of_nat j - Z.of_nat i) <= half_width 3 /\
       map of_Z [100; 100; 900; 100; 100] !! j = Some v).
Proof.
  apply (medianFilter_window_sample (map of_Z [100; 100; 900; 100; 100]) 3). lia.
Defined.

(** X2: a constant sequence passes unchanged when its value is finite, and
    becomes all NaN when it is not (an infinity or NaN). *)
Theorem medianFilter_constant (n : nat) (c : number) (win : Z) :
  0 <= win ->
  medianFilter (replicate n c) win =
  replicate n (if isFinite c then c else NaN).
Proof.
  intros Hwin. apply list_eq. intros i.
  destruct (decide (i < n)%nat) as [Hlt | Hge].
  - rewrite (lookup_replicate_2 _ _ _ Hlt).
    assert (Hi : (i < length (replicate n c))%nat) by now rewrite length_replicate.
    rewrite (proj2 (medianFilter_lookup _ win i _) (conj Hi eq_refl)). f_equal.
    destruct (median_at_window (replicate n c) (half_width win) i
                (half_width_nonneg win Hwin) Hi) as [[Hv Hall] | [Hfin (j & Hj & Hx)]].
    + pose proof (half_width_nonneg win Hwin) as Hhw.
      rewrite Hv. rewrite (Hall i c); [reflexivity | lia |].
      now apply lookup_replicate_2.
    + apply lookup_replicate in Hx as [Hx _]. rewrite Hx in *. now rewrite Hfin.
  - rewrite !lookup_ge_None_2; [reflexivity | |].
    + rewrite length_replicate. lia.
    + rewrite medianFilter_length, length_replicate. lia.
Qed.

Lemma medianFilter_constant_witness :
  medianFilter (replicate 5 (of_Z 440)) 7 = replicate 5 (of_Z 440).
Proof.
  apply (medianFilter_constant 5 (of_Z 440) 7). lia.
Defined.

(** ** The narrowest windows *)

(** X20: with a window width of 0 or 1 the filter looks at one sample at a time:
    finite samples pass unchanged, and NaN and the infinities become NaN. *)
Theorem medianFilter_narrow (arr : list number) (win : Z) :
  0 <= win <= 1 ->
  medianFilter arr win = map (fun v => if isFinite v then v else NaN) arr.
Proof.
  intros Hwin.
  assert (Hhw : half_width win = 0).
  { unfold half_width. destruct (Z.eq_dec win 0) as [-> | Hne]; [reflexivity |].
    assert (win = 1) as -> by lia. reflexivity. }
  apply list_eq. intros i. rewrite list_lookup_fmap.
  destruct (arr !! i) as [x |] eqn:Hx; simpl.
  - assert (Hi : (i < length arr)%nat) by (eapply lookup_lt_Some; exact Hx).
    rewrite (proj2 (medianFilter_lookup arr win i _) (conj Hi eq_refl)). f_equal.
    rewrite Hhw.
    destruct (median_at_window arr 0 i ltac:(lia) Hi) as [[Hv Hall] | [Hfin (j & Hj & Hjx)]].
    + rewrite Hv. rewrite (Hall i x); [reflexivity | lia | exact Hx].
    + assert (j = i) as -> by lia. rewrite Hx in Hjx. injection Hjx as ->.
      now rewrite Hfin.
  - apply lookup_ge_None_2. rewrite medianFilter_length.
    now apply lookup_ge_None_1.
Qed.

Lemma medianFilter_narrow_witness :
  medianFilter [of_Z 3; PInf; NaN; of_Z (-2)] 1 =
  map (fun v => if isFinite v then v else NaN) [of_Z 3; PInf; NaN; of_Z (-2)].
Proof.
  apply (medianFilter_narrow [of_Z 3; PInf; NaN; of_Z (-2)] 1). lia.
Defined.

(** ** The estimator on every frame *)

Lemma yin_valid_outcome (frame : F32.t) (cfg : YinConfig) :
  valid_config cfg = true ->
  yin frame cfg = Throws \/ exists r, yin frame cfg = Returns r.
Proof.
  intros Hv.
  destruct (yin_valid_cases frame cfg Hv)
    as [Ht | [Hu | (m & M & _ & _ & _ & _ & Hy)]]; eauto.
Qed.

Lemma yin_out_of_range (frame : F32.t) (cfg : YinConfig) :
  is_infinite (maxLag cfg) = true \/
  (exists M, to_integral (maxLag cfg) = IInt M /\ MAX_LENGTH < M + 1) ->
  yin frame cfg = Throws.
Proof.
  rewrite is_infinite_iff. unfold yin.
  intros [[s Hs] | (M & HM & Hout)]; [now rewrite Hs |].
  rewrite HM.
  replace (MAX_LENGTH <? M + 1) with true by (symmetry; apply Z.ltb_lt; lia).
  now rewrite orb_true_r.
Qed.

(** X3: for a valid configuration [yin] never hangs, whatever the frame
    holds: the call is rejected by the allocation of the tables or returns a
    result, and it is rejected whenever [sampleRate / minFreq] overflows to
    +Infinity or [maxLag + 1] is above the largest length of a table. *)
Theorem yin_valid_config_outcome (frame : F32.t) (cfg : YinConfig) :
  valid_config cfg = true ->
  (yin frame cfg = Throws \/ exists r, yin frame cfg = Returns r) /\
  (is_infinite (maxLag cfg) = true \/
   (exists M, to_integral (maxLag cfg) = IInt M /\ MAX_LENGTH < M + 1) ->
   yin frame cfg = Throws).
Proof.
  intros Hv. split; [now apply yin_valid_outcome | apply yin_out_of_range].
Qed.

(** A valid configuration with lags 2 to 8 returns; one with a largest lag
    of 10^17 is rejected. *)
Lemma yin_valid_config_outcome_witness :
  (exists r, yin frame_sine cfg_small = Returns r) /\
  yin frame_sine cfg_huge = Throws.
Proof.
  split.
  - destruct (proj1 (yin_valid_config_outcome frame_sine cfg_small ltac:(computed)))
      as [Ht | Hr]; [| exact Hr].
    exfalso. vm_compute in Ht. discriminate Ht.
  - apply (proj2 (yin_valid_config_outcome frame_sine cfg_huge ltac:(computed))).
    right. exists (10 ^ 17). split; [computed | vm_compute; reflexivity].
Defined.

(** ** Samples past twice the largest lag *)

Lemma F32_get_app_l (frame extra : F32.t) (i : Z) :
  0 <= i < F32.length frame ->
  F32.get (frame ++ extra) i = F32.get frame i.
Proof.
  intros Hi. unfold F32.get, F32.length in *.
  destruct (i <? 0); [reflexivity |].
  now rewrite lookup_app_l by lia.
Qed.

Lemma diff_sum_app (frame extra : F32.t) (tau : Z) (n : nat) : forall i sum,
  0 <= i -> 0 <= tau -> i + Z.of_nat n + tau <= F32.length frame ->
  diff_sum (frame ++ extra) tau n i sum = diff_sum frame tau n i sum.
Proof.
  induction n as [| n IH]; intros i sum Hi Ht Hn; simpl; [reflexivity |].
  rewrite !F32_get_app_l by lia. apply IH; lia.
Qed.

Lemma for_loop_ext {S : Type} (n : nat) : forall (lo : Z) (f g : Z -> S -> S) (s : S),
  (forall k st, lo <= k -> f k st = g k st) ->
  for_loop n lo f s = for_loop n lo g s.
Proof.
  induction n as [| n IH]; intros lo f g s H; simpl; [reflexivity |].
  rewrite (H lo s) by lia. apply IH. intros k st Hk. apply H. lia.
Qed.

Lemma diff_table_app (frame extra : F32.t) (m M : Z) :
  0 <= m -> M * 2 <= F32.length frame ->
  diff_table (frame ++ extra) m M = diff_table frame m M.
Proof.
  intros Hm HM. unfold diff_table, for_range. apply for_loop_ext.
  intros k st Hk. f_equal. unfold difference, frame_span.
  assert (Hl : F32.length (frame ++ extra) = F32.length frame + F32.length extra).
  { unfold F32.length. rewrite length_app. lia. }
  assert (0 <= F32.length extra) by (unfold F32.length; lia).
  rewrite Hl, !Z.min_r by lia.
  destruct (Z_le_dec k (M * 2)).
  - apply diff_sum_app; lia.
  - now replace (Z.to_nat (M * 2 - k)) with O by lia.
Qed.

Lemma yin_lags_app (frame extra : F32.t) (cfg : YinConfig) (m M : Z) :
  0 <= m -> M * 2 <= F32.length frame ->
  yin_lags (frame ++ extra) cfg m M = yin_lags frame cfg m M.
Proof.
  intros Hm HM. unfold yin_lags, cmnd_table. now rewrite diff_table_app.
Qed.

(** X4: with a valid configuration [yin] reads the first [2 * maxLag] samples of
    the frame only: what follows them does not change the result. *)
Theorem yin_ignores_tail (frame extra : F32.t) (cfg : YinConfig) (M : Z) :
  valid_config cfg = true ->
  to_integral (maxLag cfg) = IInt M ->
  2 * M <= F32.length frame ->
  yin (frame ++ extra) cfg = yin frame cfg.
Proof.
  intros Hv HM Hlen.
  destruct (valid_config_fields cfg Hv) as (Hthr & Hsr & Hmin & Hmax).
  pose proof (lag_nonneg _ _ Hsr Hmax) as Hm. fold (minLag cfg) in Hm.
  assert (Hspan : frame_span (frame ++ extra) M = frame_span frame M).
  { unfold frame_span, F32.length in *. rewrite length_app. lia. }
  unfold yin. rewrite HM, Hspan.
  destruct ((M + 1 <? 0) || (MAX_LENGTH <? M + 1)); [reflexivity |].
  destruct (to_integral (minLag cfg)) as [| s | m0]; try reflexivity.
  destruct (stalls m0 M (frame_span frame M)); [reflexivity |].
  f_equal. apply yin_lags_app; lia.
Qed.

Lemma yin_ignores_tail_witness :
  yin (frame_sine ++ [of_Z 1; of_Z (-1)]) cfg_small = yin frame_sine cfg_small.
Proof.
  apply (yin_ignores_tail frame_sine [of_Z 1; of_Z (-1)] cfg_small 8).
  - computed.
  - computed.
  - vm_compute. discriminate.
Defined.

(** ** Frames too short for any lag *)

Lemma flat_running_sum (diff : F32.t) (M tau : Z) :
  (forall j, zero_or_nan (F32.get diff j)) ->
  zero_or_nan (fst (cmnd_loop diff M tau)).
Proof.
  intros Hd. unfold cmnd_loop.
  apply (for_range_invariant (fun st => zero_or_nan (fst st))).
  - now left.
  - intros k st _ H. unfold cmnd_step. simpl. apply zn_add; [exact H | apply Hd].
Qed.

Lemma flat_cmnd (diff : F32.t) (M tau : Z) :
  (forall j, zero_or_nan (F32.get diff j)) ->
  1 <= tau <= M -> F32.get (snd (cmnd_loop diff M M)) tau = NaN.
Proof.
  intros Hd Ht.
  replace M with (tau + Z.of_nat (Z.to_nat (M - tau))) at 2 by lia.
  rewrite cmnd_loop_get by assumption.
  destruct (flat_running_sum diff M tau Hd) as [Hr | ->].
  - destruct (Hd tau) as [Hz | ->].
    + now rewrite div_mul_zero_zero.
    + destruct (fst (cmnd_loop diff M tau)); try discriminate. reflexivity.
  - destruct (mul _ _); reflexivity.
Qed.

Lemma flat_yin_lags (frame : F32.t) (cfg : YinConfig) (m M : Z) :
  (forall j, zero_or_nan (F32.get (diff_table frame m M) j)) ->
  lt (threshold cfg) one = true ->
  yin_lags frame cfg m M = unvoiced.
Proof.
  intros Hd Hthr. unfold yin_lags.
  assert (Hf : first_below (cmnd_table frame m M) (threshold cfg) m M = -1).
  { destruct (first_below_spec (cmnd_table frame m M) (threshold cfg) m M)
      as [[Hr _] | (Hr & H0 & Hlt & _)]; [exact Hr | exfalso].
    set (r := first_below (cmnd_table frame m M) (threshold cfg) m M) in *.
    destruct (Z.eq_dec r 0) as [Hr0 | Hr0].
    - rewrite Hr0, cmnd_table_get_0 in Hlt by lia.
      rewrite (lt_asym _ _ Hthr) in Hlt. discriminate.
    - unfold cmnd_table in Hlt. rewrite (flat_cmnd _ M r Hd) in Hlt by lia.
      discriminate. }
  now rewrite Hf.
Qed.

Lemma short_diff_table (frame : F32.t) (m M : Z) :
  F32.length frame <= m ->
  forall j, zero_or_nan (F32.get (diff_table frame m M) j).
Proof.
  intros Hlen. unfold diff_table.
  apply (for_range_invariant (fun a => forall j, zero_or_nan (F32.get a j))).
  - apply F32_get_make_all; [now left | now right].
  - intros k a Hk Ha. apply F32_get_set_all; [| exact Ha].
    apply zn_fround. unfold difference, frame_span.
    replace (Z.to_nat (Z.min (F32.length frame) (M * 2) - k)) with O by lia.
    now left.
Qed.

Lemma yin_flat_unvoiced (frame : F32.t) (cfg : YinConfig) :
  valid_config cfg = true ->
  yin frame cfg <> Throws ->
  (forall m M, to_integral (minLag cfg) = IInt m ->
               forall j, zero_or_nan (F32.get (diff_table frame m M) j)) ->
  yin frame cfg = Returns unvoiced.
Proof.
  intros Hv Hnt Hflat.
  destruct (valid_config_fields cfg Hv) as (Hthr & _).
  destruct (yin_valid_cases frame cfg Hv)
    as [Ht | [Hu | (m & M & _ & _ & Hm & _ & Hy)]];
    [now elim Hnt | exact Hu |].
  rewrite Hy. f_equal. apply flat_yin_lags; [now apply Hflat | exact Hthr].
Qed.

(** X5: under a valid configuration, a frame with no more samples than the
    smallest lag, the empty frame among them, is reported unvoiced, unless
    the call is rejected by the allocation of the tables. *)
Theorem yin_short_frame_unvoiced (frame : F32.t) (cfg : YinConfig) (m : Z) :
  valid_config cfg = true ->
  yin frame cfg <> Throws ->
  to_integral (minLag cfg) = IInt m ->
  F32.length frame <= m ->
  yin frame cfg = Returns unvoiced.
Proof.
  intros Hv Hnt Hm Hlen. apply yin_flat_unvoiced; try assumption.
  intros m' M Hm' j. rewrite Hm in Hm'. injection Hm' as <-.
  now apply short_diff_table.
Qed.

Lemma yin_short_frame_unvoiced_witness :
  yin (frame_of [1; -1] 2) cfg_small = Returns unvoiced.
Proof.
  apply (yin_short_frame_unvoiced (frame_of [1; -1] 2) cfg_small 2).
  - computed.
  - vm_compute. discriminate.
  - computed.
  - vm_compute. discriminate.
Defined.

Import Tracker TrackerRuns.

(** ** What a run of the tracker changes *)

Lemma extends_refl (w : World) : extends w w.
Proof.
  repeat apply conj; try reflexivity.
  exists []. split; [now rewrite app_nil_r | reflexivity].
Qed.

Lemma extends_trans (w1 w2 w3 : World) : extends w1 w2 -> extends w2 w3 -> extends w1 w3.
Proof.
  intros (Hc1 & Hs1 & n1 & He1 & Hl1) (Hc2 & Hs2 & n2 & He2 & Hl2).
  repeat apply conj; [congruence | congruence |].
  exists (n1 ++ n2). split; [rewrite He2, He1; now rewrite app_assoc |].
  intros H. apply Forall_app in H as [H1 H2]. rewrite Hl2, Hl1; auto.
Qed.

Lemma extends_start (offset now : number) (w : World) : extends w (start offset now w).
Proof.
  repeat apply conj; try reflexivity.
  exists []. split; [now rewrite app_nil_r | reflexivity].
Qed.

Lemma extends_stop (w : World) : extends w (stop w).
Proof.
  unfold stop. destruct (rafId (tracker w)); (repeat apply conj; try reflexivity);
    (exists []; split; [now rewrite app_nil_r | reflexivity]).
Qed.

Lemma extends_run_callback (data : F32.t) (now : number) (w w' : World) :
  run_callback data now w = Returns w' -> extends w w'.
Proof.
  unfold run_callback, tick.
  destruct (yin data _) as [res | |]; intros H; try discriminate.
  - injection H as <-. repeat apply conj; try reflexivity.
    eexists. split; [reflexivity |]. simpl.
    intros Hall. apply Forall_inv in Hall. unfold unvoiced_point in Hall.
    destruct (freqHz res); simpl in Hall; [discriminate Hall | reflexivity].
  - injection H as <-. apply extends_refl.
Qed.

Lemma extends_run_callbacks (pending : list Z) (data : F32.t) (now : number) :
  forall w w', run_callbacks pending data now w = Returns w' -> extends w w'.
Proof.
  induction pending as [| h rest IH]; intros w w' H; simpl in H.
  - injection H as <-. apply extends_refl.
  - destruct (run_callback data now w) as [w1 | |] eqn:H1; try discriminate.
    eapply extends_trans; [eapply extends_run_callback; exact H1 | now apply IH].
Qed.

Lemma extends_step (e : event) (w w' : World) : step w e = Returns w' -> extends w w'.
Proof.
  destruct e as [offset now | | data now]; simpl; intros H.
  - injection H as <-. apply extends_start.
  - injection H as <-. apply extends_stop.
  - unfold animation_frame in H. apply extends_run_callbacks in H.
    destruct H as (Hc & Hs & new & He & Hl). repeat apply conj; try assumption.
    exists new. split; assumption.
Qed.

Lemma extends_run (es : list event) : forall w w', run es w = Returns w' -> extends w w'.
Proof.
  induction es as [| e es IH]; intros w w' H; simpl in H.
  - injection H as <-. apply extends_refl.
  - destruct (step w e) as [w1 | |] eqn:H1; try discriminate.
    eapply extends_trans; [eapply extends_step; exact H1 | now apply IH].
Qed.

(** X6: whatever calls and frames a tracker goes through, its options stay the
    same, the points it has passed on are only added to, and its smoothing
    state changes only when a voiced point is passed on: neither [start] nor
    [stop] resets it. *)
Theorem smoothing_state_kept (es : list event) (w w' : World) :
  run es w = Returns w' ->
  cfg (tracker w') = cfg (tracker w) /\
  exists new,
    emitted w' = emitted w ++ new /\
    (Forall unvoiced_point new -> lastEma (tracker w') = lastEma (tracker w)).
Proof.
  intros H. destruct (extends_run es w w' H) as (Hc & _ & Hnew). now split.
Qed.

Lemma smoothing_state_kept_witness :
  exists w',
    run [Stop; Start (of_Z 2) (of_Z 7); Frame silence16 (of_Z 8)] heard = Returns w' /\
    cfg (tracker w') = cfg (tracker heard) /\
    exists new,
      emitted w' = emitted heard ++ new /\
      (Forall unvoiced_point new -> lastEma (tracker w') = lastEma (tracker heard)).
Proof.
  eexists. split; [computed |].
  apply (smoothing_state_kept [Stop; Start (of_Z 2) (of_Z 7); Frame silence16 (of_Z 8)] heard).
  computed.
Defined.

(** ** A started tracker, frame by frame *)

Lemma yin_config_cfg (t t' : PitchTracker) (sr : number) :
  cfg t' = cfg t -> yin_config t' sr = yin_config t sr.
Proof. intros H. unfold yin_config. now rewrite H. Qed.

(** One animation frame of a tracker with one pending tick whose estimate
    returns. *)
Lemma frame_single_returns (data : F32.t) (now : number) (w : World) (h : Z)
    (res : YinResult) :
  callbacks w = [h] ->
  yin data (yin_config (tracker w) (acSampleRate w)) = Returns res ->
  exists w' p,
    animation_frame data now w = Returns w' /\
    emitted w' = emitted w ++ [p] /\
    tSec p = sub now (startedAt (tracker w)) /\
    prob p = probability res /\
    callbacks w' = [nextHandle w] /\
    rafId (tracker w') = Some (nextHandle w) /\
    startedAt (tracker w') = startedAt (tracker w) /\
    cfg (tracker w') = cfg (tracker w) /\
    acSampleRate w' = acSampleRate w.
Proof.
  intros Hcb Hyin. unfold animation_frame. rewrite Hcb. simpl run_callbacks.
  unfold run_callback, tick. simpl tracker. simpl acSampleRate. rewrite Hyin.
  simpl. eexists. eexists. repeat apply conj; reflexivity.
Qed.

Lemma frames_single_return (fs : list (F32.t * number)) : forall (w : World) (h : Z),
  callbacks w = [h] -> rafId (tracker w) = Some h ->
  Forall (fun f => exists res,
            yin (fst f) (yin_config (tracker w) (acSampleRate w)) = Returns res) fs ->
  exists w' pts,
    run (frames fs) w = Returns w' /\
    emitted w' = emitted w ++ pts /\
    map tSec pts = map (fun f => sub (snd f) (startedAt (tracker w))) fs /\
    exists h', callbacks w' = [h'] /\ rafId (tracker w') = Some h'.
Proof.
  induction fs as [| [data now] fs IH]; intros w h Hcb Hraf Hall.
  - exists w, []. simpl. rewrite app_nil_r. repeat apply conj; try reflexivity.
    exists h. now split.
  - apply Forall_cons in Hall as [[res Hres] Hall]. simpl in Hres.
    destruct (frame_single_returns data now w h res Hcb Hres)
      as (w1 & p & Hf & He & Ht & _ & Hcb1 & Hraf1 & Hst & Hcfg & Hsr).
    assert (Hall1 : Forall (fun f => exists res0,
              yin (fst f) (yin_config (tracker w1) (acSampleRate w1)) = Returns res0) fs).
    { rewrite Hsr, (yin_config_cfg _ _ _ Hcfg). exact Hall. }
    destruct (IH w1 _ Hcb1 Hraf1 Hall1) as (w' & pts & Hrun & He' & Hts & Hh).
    exists w', (p :: pts). simpl. rewrite Hf. repeat apply conj.
    + exact Hrun.
    + rewrite He', He. now rewrite <- app_assoc.
    + rewrite Ht, Hts, Hst. reflexivity.
    + exact Hh.
Qed.

(** X7: after [start(offset)] at time [t0] on a tracker with no tick pending,
    as long as the estimator returns, every animation frame passes exactly
    one point on, stamped with the frame's time minus [t0 - offset], and
    leaves exactly one tick pending, the one the tracker remembers. *)
Theorem started_tracker_one_point_per_frame (w : World) (offset t0 : number)
    (fs : list (F32.t * number)) :
  callbacks w = [] ->
  Forall (fun f => exists res,
            yin (fst f) (yin_config (tracker w) (acSampleRate w)) = Returns res) fs ->
  exists w' pts,
    run (Start offset t0 :: frames fs) w = Returns w' /\
    emitted w' = emitted w ++ pts /\
    map tSec pts = map (fun f => sub (snd f) (sub t0 offset)) fs /\
    exists h, callbacks w' = [h] /\ rafId (tracker w') = Some h.
Proof.
  intros Hcb Hall. simpl run.
  apply (frames_single_return fs (start offset t0 w) (nextHandle w)).
  - unfold start. simpl. now rewrite Hcb.
  - reflexivity.
  - exact Hall.
Qed.

Lemma started_tracker_one_point_per_frame_witness :
  exists w' pts,
    run (Start (of_Z 2) (of_Z 7) :: frames [(square4, of_Z 8); (silence16, of_Z 9)])
        (construct rate100 no_options) = Returns w' /\
    emitted w' = emitted (construct rate100 no_options) ++ pts /\
    map tSec pts =
      map (fun f => sub (snd f) (sub (of_Z 7) (of_Z 2)))
          [(square4, of_Z 8); (silence16, of_Z 9)] /\
    exists h, callbacks w' = [h] /\ rafId (tracker w') = Some h.
Proof.
  apply (started_tracker_one_point_per_frame (construct rate100 no_options)
           (of_Z 2) (of_Z 7) [(square4, of_Z 8); (silence16, of_Z 9)]).
  - reflexivity.
  - repeat constructor; eexists; computed.
Defined.

(** ** A configuration the estimator rejects *)

Lemma frames_idle (fs : list (F32.t * number)) (w : World) :
  callbacks w = [] -> run (frames fs) w = Returns w.
Proof.
  intros Hcb. induction fs as [| [data now] fs IH]; [reflexivity |].
  simpl. unfold animation_frame. rewrite Hcb. simpl.
  destruct w as [t sr cbs nh em]. simpl in Hcb. subst cbs. exact IH.
Qed.

Lemma frame_single_throws (data : F32.t) (now : number) (w : World) (h : Z) :
  callbacks w = [h] ->
  yin data (yin_config (tracker w) (acSampleRate w)) = Throws ->
  exists w',
    animation_frame data now w = Returns w' /\
    emitted w' = emitted w /\
    callbacks w' = [] /\
    rafId (tracker w') = rafId (tracker w).
Proof.
  intros Hcb Hyin. unfold animation_frame. rewrite Hcb. simpl run_callbacks.
  unfold run_callback, tick. simpl tracker. simpl acSampleRate. rewrite Hyin.
  eexists. repeat apply conj; reflexivity.
Qed.

(** X8: when the options make [sampleRate / minFreq] infinite, as [minFreq: 0]
    does, the first tick of a started tracker dies in the estimator: no point
    is ever passed on, and after the first animation frame no tick is
    pending, although [stop] was not called. *)
Theorem rejected_config_silences_tracker (w : World) (offset t0 : number)
    (data : F32.t) (now : number) (fs : list (F32.t * number)) :
  callbacks w = [] ->
  is_infinite (maxLag (yin_config (tracker w) (acSampleRate w))) = true ->
  exists w',
    run (Start offset t0 :: frames ((data, now) :: fs)) w = Returns w' /\
    emitted w' = emitted w /\
    callbacks w' = [] /\
    rafId (tracker w') <> None.
Proof.
  intros Hcb Hinf. apply is_infinite_iff in Hinf as [s Hs].
  assert (Hc : callbacks (start offset t0 w) = [nextHandle w])
    by (unfold start; simpl; now rewrite Hcb).
  assert (Hyin : yin data (yin_config (tracker (start offset t0 w))
                                      (acSampleRate (start offset t0 w))) = Throws).
  { unfold yin. change (yin_config (tracker (start offset t0 w))
                                   (acSampleRate (start offset t0 w)))
      with (yin_config (tracker w) (acSampleRate w)). now rewrite Hs. }
  destruct (frame_single_throws data now _ _ Hc Hyin) as (w1 & Hf & He & Hcb1 & Hraf).
  exists w1. simpl run. rewrite Hf. repeat apply conj.
  - now apply frames_idle.
  - exact He.
  - exact Hcb1.
  - rewrite Hraf. discriminate.
Qed.

Lemma rejected_config_silences_tracker_witness :
  exists w',
    run (Start zero zero :: frames [(square4, of_Z 1); (square4, of_Z 2)])
        (construct rate100 min_freq_zero) = Returns w' /\
    emitted w' = emitted (construct rate100 min_freq_zero) /\
    callbacks w' = [] /\
    rafId (tracker w') <> None.
Proof.
  apply (rejected_config_silences_tracker (construct rate100 min_freq_zero)
           zero zero square4 (of_Z 1) [(square4, of_Z 2)]).
  - reflexivity.
  - computed.
Defined.

(** ** The smoothing state and the points passed on *)

Lemma last_voiced_snoc (pts : list PitchPoint) (p : PitchPoint) :
  last_voiced (pts ++ [p]) =
  match freq p with Some f => Some f | None => last_voiced pts end.
Proof. unfold last_voiced. now rewrite foldl_app. Qed.

Lemma last_voiced_run_callback (data : F32.t) (now : number) (w w' : World) :
  lastEma (tracker w) = last_voiced (emitted w) ->
  run_callback data now w = Returns w' ->
  lastEma (tracker w') = last_voiced (emitted w').
Proof.
  unfold run_callback, tick.
  destruct (yin data _) as [res | |]; intros Hinv H; try discriminate.
  - injection H as <-. simpl. rewrite last_voiced_snoc. simpl.
    destruct (freqHz res); [reflexivity | exact Hinv].
  - injection H as <-. exact Hinv.
Qed.

Lemma last_voiced_run_callbacks (pending : list Z) (data : F32.t) (now : number) :
  forall w w',
    lastEma (tracker w) = last_voiced (emitted w) ->
    run_callbacks pending data now w = Returns w' ->
    lastEma (tracker w') = last_voiced (emitted w').
Proof.
  induction pending as [| h rest IH]; intros w w' Hinv H; simpl in H.
  - injection H as <-. exact Hinv.
  - destruct (run_callback data now w) as [w1 | |] eqn:H1; try discriminate.
    eapply IH; [| exact H]. eapply last_voiced_run_callback; eassumption.
Qed.

Lemma last_voiced_run (es : list event) : forall w w',
  lastEma (tracker w) = last_voiced (emitted w) ->
  run es w = Returns w' ->
  lastEma (tracker w') = last_voiced (emitted w').
Proof.
  induction es as [| e es IH]; intros w w' Hinv H; simpl in H.
  - injection H as <-. exact Hinv.
  - destruct (step w e) as [w1 | |] eqn:H1; try discriminate.
    eapply IH; [| exact H].
    destruct e as [offset now | | data now]; simpl in H1.
    + injection H1 as <-. exact Hinv.
    + injection H1 as <-. unfold stop. destruct (rafId (tracker w)); exact Hinv.
    + eapply last_voiced_run_callbacks; [| exact H1]. exact Hinv.
Qed.

(** X19: at every moment in the life of a tracker, whatever calls and frames it
    went through, its smoothing state is the frequency of the last voiced
    point it passed on, and is unset when it passed no voiced point on. *)
Theorem smoothing_state_is_last_voiced (es : list event) (sr : number)
    (c : PartialConfig) (w : World) :
  run es (construct sr c) = Returns w ->
  lastEma (tracker w) = last_voiced (emitted w).
Proof. apply last_voiced_run. reflexivity. Qed.

Lemma smoothing_state_is_last_voiced_witness :
  exists w,
    run [Start zero zero; Frame square4 (of_Z 1); Stop; Start zero (of_Z 2);
         Frame silence16 (of_Z 3)] (construct rate100 no_options) = Returns w /\
    lastEma (tracker w) = last_voiced (emitted w).
Proof.
  eexists. split; [computed |].
  apply (smoothing_state_is_last_voiced
           [Start zero zero; Frame square4 (of_Z 1); Stop; Start zero (of_Z 2);
            Frame silence16 (of_Z 3)] rate100 no_options).
  computed.
Defined.

Import Segment.

(** ** The windows of a channel *)

Lemma file_config_valid (sr : number) :
  lt zero sr = true -> valid_config (file_config sr) = true.
Proof.
  intros Hsr. unfold valid_config.
  change (threshold (file_config sr)) with Tracker.c0_12.
  change (probabilityThreshold (file_config sr)) with Tracker.c0_1.
  change (sampleRate (file_config sr)) with sr.
  change (default (of_Z 50) (minFreq (file_config sr))) with (of_Z 50).
  change (default (of_Z 1200) (maxFreq (file_config sr))) with (of_Z 1200).
  rewrite Hsr.
  assert (H1 : lt zero Tracker.c0_12 = true) by computed.
  assert (H2 : lt Tracker.c0_12 one = true) by computed.
  assert (H3 : le zero Tracker.c0_1 = true) by computed.
  assert (H4 : le Tracker.c0_1 one = true) by computed.
  assert (H5 : lt zero (of_Z 50) = true) by computed.
  assert (H6 : lt (of_Z 50) (of_Z 1200) = true) by computed.
  now rewrite H1, H2, H3, H4, H5, H6.
Qed.

Lemma f0_loop_length (ch0 : F32.t) (sr : number) (fuel : nat) : forall i f0,
  0 <= i -> F32.length ch0 - i <= Z.of_nat fuel ->
  f0_loop fuel ch0 sr i = Returns f0 ->
  Z.of_nat (length f0) =
  Z.max 0 ((F32.length ch0 - i - FRAME_SIZE + HOP_SIZE - 1) / HOP_SIZE).
Proof.
  unfold FRAME_SIZE, HOP_SIZE.
  induction fuel as [| fuel IH]; intros i f0 Hi Hlen H; simpl in H.
  - injection H as <-. simpl length. Z.to_euclidean_division_equations. lia.
  - unfold FRAME_SIZE in H.
    destruct (i + 2048 <? F32.length ch0) eqn:Hlt.
    + apply Z.ltb_lt in Hlt.
      destruct (yin _ _) as [res | |]; try discriminate.
      destruct (f0_loop fuel ch0 sr (i + HOP_SIZE)) as [f0' | |] eqn:Hrec; try discriminate.
      injection H as <-. unfold HOP_SIZE in Hrec.
      apply IH in Hrec; [| lia | lia].
      simpl length. rewrite Nat2Z.inj_succ, Hrec.
      Z.to_euclidean_division_equations. lia.
    + apply Z.ltb_ge in Hlt. injection H as <-. simpl length.
      Z.to_euclidean_division_equations. lia.
Qed.

Lemma f0_loop_outcome (ch0 : F32.t) (sr : number) :
  lt zero sr = true ->
  forall fuel i,
    f0_loop fuel ch0 sr i = Throws \/ exists f0, f0_loop fuel ch0 sr i = Returns f0.
Proof.
  intros Hsr. induction fuel as [| fuel IH]; intros i; simpl; [eauto |].
  destruct (i + FRAME_SIZE <? F32.length ch0); [| eauto].
  destruct (yin_valid_outcome (F32.subarray ch0 i (i + FRAME_SIZE)) (file_config sr)
              (file_config_valid sr Hsr)) as [-> | [r ->]]; [now left |].
  destruct (IH (i + HOP_SIZE)) as [-> | [f0 ->]]; eauto.
Qed.

Lemma f0_track_length (ch0 : F32.t) (sr : number) (f0 : list (option number)) :
  f0_track ch0 sr = Returns f0 ->
  Z.of_nat (length f0) =
  Z.max 0 ((F32.length ch0 - FRAME_SIZE + HOP_SIZE - 1) / HOP_SIZE).
Proof.
  intros H. unfold f0_track in H.
  rewrite (f0_loop_length ch0 sr (List.length ch0) 0 f0 ltac:(lia) ltac:(unfold F32.length; lia) H).
  now rewrite Z.sub_0_r.
Qed.

(** X9: with a positive sample rate the window loop never hangs: it is
    rejected by the allocation inside [yin], or it returns one estimate for
    each start 0, 512, 1024, ... that leaves more than 2048 samples beyond
    it, none for a channel of 2048 samples or fewer. *)
Theorem f0_track_window_count (ch0 : F32.t) (sr : number) :
  lt zero sr = true ->
  f0_track ch0 sr = Throws \/
  exists f0,
    f0_track ch0 sr = Returns f0 /\
    Z.of_nat (length f0) =
    Z.max 0 ((F32.length ch0 - FRAME_SIZE + HOP_SIZE - 1) / HOP_SIZE).
Proof.
  intros Hsr.
  destruct (f0_loop_outcome ch0 sr Hsr (length ch0) 0) as [Ht | [f0 Hf0]];
    [now left | right].
  exists f0. split; [exact Hf0 |]. exact (f0_track_length ch0 sr f0 Hf0).
Qed.

(** Three estimates for a channel of 3073 samples. *)
Lemma f0_track_window_count_witness :
  exists f0,
    f0_track square_channel rate100 = Returns f0 /\ Z.of_nat (length f0) = 3.
Proof.
  destruct (f0_track_window_count square_channel rate100 ltac:(computed))
    as [Ht | Hr]; [| exact Hr].
  exfalso. vm_compute in Ht. discriminate Ht.
Defined.

(** ** Channels that give no note *)

Section NoNotes.

Context {Id : Type}.
Variable log2 : number -> number.
Variable randomUUID : nat -> Id.

Lemma f0_track_short (ch0 : F32.t) (sr : number) :
  F32.length ch0 <= FRAME_SIZE -> f0_track ch0 sr = Returns [].
Proof.
  intros Hlen. unfold f0_track. destruct (length ch0) as [| n] eqn:Hn; [reflexivity |].
  simpl. replace (0 + FRAME_SIZE <? F32.length ch0) with false; [reflexivity |].
  symmetry. apply Z.ltb_ge. lia.
Qed.

Lemma extractor_loop_unvoiced (frameDur : number) (f0Med : list number) :
  Forall (fun v => isFinite v = false) f0Med ->
  forall i notes curStart,
    extractor_loop log2 randomUUID frameDur f0Med i (notes, curStart, None) =
    (notes, curStart, None).
Proof.
  induction 1 as [| v rest Hv _ IH]; intros i notes curStart; simpl; [reflexivity |].
  unfold hzToMidiNumber. rewrite Hv. simpl. apply IH.
Qed.

Lemma generator_loop_unvoiced (frameDur : number) (f0Med : list number) :
  Forall (fun v => isFinite v = false) f0Med ->
  forall i notes curStart,
    generator_loop log2 randomUUID frameDur f0Med i (notes, curStart, None) =
    (notes, curStart, None).
Proof.
  induction 1 as [| v rest Hv _ IH]; intros i notes curStart; simpl; [reflexivity |].
  rewrite Hv. simpl. apply IH.
Qed.

Lemma segments_unvoiced (sr : number) (f0Med : list number) :
  Forall (fun v => isFinite v = false) f0Med ->
  extractor_segment log2 randomUUID sr f0Med = [] /\
  generator_segment log2 randomUUID sr f0Med = [].
Proof.
  intros H. unfold extractor_segment, generator_segment.
  now rewrite extractor_loop_unvoiced, generator_loop_unvoiced.
Qed.

Lemma f0_median_unvoiced (f0 : list (option number)) :
  Forall (fun v => v = None) f0 ->
  Forall (fun v => isFinite v = false) (f0_median f0).
Proof.
  intros Hall. unfold f0_median. apply Forall_lookup. intros i v Hv.
  apply medianFilter_lookup in Hv as [Hlt ->].
  destruct (median_at_window (map (fun v => default NaN v) f0) (half_width 7) i
              ltac:(now apply half_width_nonneg) Hlt)
    as [[-> _] | [_ (j & _ & Hj)]]; [reflexivity |].
  rewrite list_lookup_fmap in Hj.
  destruct (f0 !! j) as [o |] eqn:Ho; [| discriminate].
  rewrite Forall_lookup in Hall. rewrite (Hall _ _ Ho) in Hj.
  simpl in Hj. injection Hj as <-. reflexivity.
Qed.

End NoNotes.

(** X10: a channel of 2048 samples or fewer gives no note, whatever the sample
    rate: no window is analysed, so not even a sample rate the estimator
    rejects makes the call fail. *)
Theorem short_channel_no_notes {Id : Type} (log2 : number -> number)
    (randomUUID : nat -> Id) (ch0 : F32.t) (sr : number) :
  F32.length ch0 <= FRAME_SIZE ->
  handleFile log2 randomUUID ch0 sr = Returns [] /\
  analyzePart log2 randomUUID ch0 sr = Returns [].
Proof.
  intros Hlen. unfold handleFile, analyzePart.
  rewrite (f0_track_short ch0 sr Hlen). split; reflexivity.
Qed.

Lemma short_channel_no_notes_witness :
  handleFile log2_floor (fun k : nat => k) (replicate 2048 (ratio 1 2)) zero = Returns [] /\
  analyzePart log2_floor (fun k : nat => k) (replicate 2048 (ratio 1 2)) zero = Returns [].
Proof.
  apply (short_channel_no_notes log2_floor (fun k : nat => k) (replicate 2048 (ratio 1 2)) zero).
  vm_compute. discriminate.
Defined.

Lemma silent_subarray (ch0 : F32.t) (lo hi : Z) :
  silent ch0 -> silent (F32.subarray ch0 lo hi).
Proof.
  intros H. unfold silent, F32.subarray. now apply Forall_take, Forall_drop.
Qed.

Lemma yin_silent_cases (frame : F32.t) (cfg : YinConfig) :
  valid_config cfg = true -> silent frame ->
  yin frame cfg = Throws \/ yin frame cfg = Returns unvoiced.
Proof.
  intros Hv Hs.
  destruct (valid_config_fields cfg Hv) as (Hthr & _).
  destruct (yin_valid_cases frame cfg Hv)
    as [Ht | [Hu | (m & M & _ & _ & _ & _ & Hy)]]; [now left | now right |].
  right. rewrite Hy. now rewrite silent_yin_lags.
Qed.

Lemma f0_loop_silent (ch0 : F32.t) (sr : number) :
  lt zero sr = true -> silent ch0 ->
  forall fuel i,
    f0_loop fuel ch0 sr i = Throws \/
    exists f0, f0_loop fuel ch0 sr i = Returns f0 /\ Forall (fun v => v = None) f0.
Proof.
  intros Hsr Hs. induction fuel as [| fuel IH]; intros i; simpl; [eauto |].
  destruct (i + FRAME_SIZE <? F32.length ch0); [| eauto].
  destruct (yin_silent_cases (F32.subarray ch0 i (i + FRAME_SIZE)) (file_config sr)
              (file_config_valid sr Hsr) (silent_subarray ch0 _ _ Hs)) as [-> | ->];
    [now left |].
  destruct (IH (i + HOP_SIZE)) as [-> | (f0 & -> & Hall)]; [now left | right].
  eexists. split; [reflexivity |]. constructor; [reflexivity | exact Hall].
Qed.

(** X11: a channel of silence gives no note, with either component, at
    every positive sample rate, unless the call is rejected by the
    allocation inside [yin]. *)
Theorem silent_channel_no_notes {Id : Type} (log2 : number -> number)
    (randomUUID : nat -> Id) (ch0 : F32.t) (sr : number) :
  lt zero sr = true ->
  silent ch0 ->
  handleFile log2 randomUUID ch0 sr <> Throws ->
  handleFile log2 randomUUID ch0 sr = Returns [] /\
  analyzePart log2 randomUUID ch0 sr = Returns [].
Proof.
  intros Hsr Hs. unfold handleFile, analyzePart, f0_track.
  destruct (f0_loop_silent ch0 sr Hsr Hs (length ch0) 0) as [-> | (f0 & -> & Hall)];
    intros Hnt; [now elim Hnt |].
  destruct (segments_unvoiced log2 randomUUID sr (f0_median f0)
              (f0_median_unvoiced f0 Hall)) as [-> ->].
  split; reflexivity.
Qed.

Lemma silent_channel_no_notes_witness :
  handleFile log2_floor (fun k : nat => k) (replicate 3000 zero) rate100 = Returns [] /\
  analyzePart log2_floor (fun k : nat => k) (replicate 3000 zero) rate100 = Returns [].
Proof.
  apply (silent_channel_no_notes log2_floor (fun k : nat => k) (replicate 3000 zero) rate100).
  - computed.
  - apply Forall_replicate. reflexivity.
  - vm_compute. discriminate.
Defined.

(** ** Notes and windows *)

Lemma sequential_length (l : list (Z * Z)) : forall lo hi,
  sequential lo hi l -> lo + Z.of_nat (length l) <= hi.
Proof.
  induction l as [| [a b] l IH]; intros lo hi H; simpl in *; [lia |].
  destruct H as (Hlo & Hab & H). apply IH in H. lia.
Qed.

(** X12: the notes either component returns lie on frame ranges that follow one
    another between frame 0 and the number of windows of the channel, so
    there are at most as many notes as windows. *)
Theorem notes_within_windows {Id : Type} (log2 : number -> number)
    (randomUUID : nat -> Id) (ch0 : F32.t) (sr : number) (notes : list (Note Id)) :
  handleFile log2 randomUUID ch0 sr = Returns notes \/
  analyzePart log2 randomUUID ch0 sr = Returns notes ->
  let windows := Z.max 0 ((F32.length ch0 - FRAME_SIZE + HOP_SIZE - 1) / HOP_SIZE) in
  (exists sp, Forall2 (spans (div (of_Z HOP_SIZE) sr)) notes sp /\
              sequential 0 windows sp) /\
  Z.of_nat (length notes) <= windows.
Proof.
  intros H windows.
  assert (Hsp : exists sp, Forall2 (spans (div (of_Z HOP_SIZE) sr)) notes sp /\
                           sequential 0 windows sp).
  { unfold handleFile, analyzePart in H.
    destruct (f0_track ch0 sr) as [f0 | |] eqn:Hf0;
      destruct H as [H | H]; try discriminate; injection H as <-;
      destruct (extractor_segment_ok log2 randomUUID sr (f0_median f0))
        as (Hd & sp & Hsp & Hseq);
      unfold f0_median in Hseq at 1;
      rewrite medianFilter_length, length_map, (f0_track_length ch0 sr f0 Hf0) in Hseq.
    - now exists sp.
    - destruct (notes_ok_fields _ _ _ sp
                  (segment_fields log2 randomUUID randomUUID sr (f0_median f0)) Hd Hsp)
        as [_ Hsp2].
      now exists sp. }
  split; [exact Hsp |].
  destruct Hsp as (sp & Hsp & Hseq).
  apply Forall2_length in Hsp. apply sequential_length in Hseq. lia.
Qed.

Lemma notes_within_windows_witness :
  exists notes : list (Note nat),
    handleFile log2_floor (fun k => k) square_channel rate100 = Returns notes /\
    Z.of_nat (length notes) <=
    Z.max 0 ((F32.length square_channel - FRAME_SIZE + HOP_SIZE - 1) / HOP_SIZE).
Proof.
  eexists. split; [computed |].
  refine (proj2 (notes_within_windows log2_floor (fun k => k) square_channel
                   rate100 _ (or_introl _))).
  vm_compute. reflexivity.
Defined.

Import Runs.

(** ** Notes as runs of one pitch *)

Lemma sub_self (x : number) : zero_or_nan (sub x x).
Proof.
  destruct x as [s | s | | s m e].
  - left. destruct s; reflexivity.
  - right. destruct s; reflexivity.
  - now right.
  - left. unfold sub, SFsub. rewrite Z.sub_diag. reflexivity.
Qed.

Lemma same_pitch_refl (q : number) : same_pitch q q.
Proof.
  unfold same_pitch. destruct (sub_self q) as [H | ->]; [| reflexivity].
  destruct (sub q q); try discriminate. reflexivity.
Qed.

Section RunFacts.

Context {Id : Type}.
Variable log2 : number -> number.
Variable randomUUID : nat -> Id.
Variable frameDur : number.
Variable f0Med : list number.

Lemma run_of_open (i : Z) (hz m : number) :
  f0Med !! Z.to_nat i = Some hz -> hzToMidiNumber log2 hz = Some m ->
  run_of log2 f0Med i (i + 1) (round m).
Proof.
  intros Hhz Hm. split.
  - exists hz. split; [exact Hhz |]. now exists m.
  - intros j Hj. assert (j = i) as -> by lia.
    exists hz, (round m). repeat split; [exact Hhz | now exists m | apply same_pitch_refl].
Qed.

Lemma run_of_extend (a i : Z) (hz m cm : number) :
  f0Med !! Z.to_nat i = Some hz -> hzToMidiNumber log2 hz = Some m ->
  gt (abs (sub (round m) cm)) zero = false ->
  run_of log2 f0Med a i cm -> run_of log2 f0Med a (i + 1) cm.
Proof.
  intros Hhz Hm Hsame [Hfirst Hall]. split; [exact Hfirst |].
  intros j Hj. destruct (Z.eq_dec j i) as [-> | Hne].
  - exists hz, (round m). repeat split; [exact Hhz | now exists m | exact Hsame].
  - apply Hall. lia.
Qed.

Lemma close_note_runs (notes : list (Note Id)) (sp : list (Z * Z)) (a b : Z) (cm : number) :
  Forall2 (note_run log2 frameDur f0Med) notes sp ->
  sequential 0 a sp -> 0 <= a < b -> run_of log2 f0Med a b cm ->
  let notes' := close_note randomUUID notes (mul (of_Z a) frameDur)
                  (sub (mul (of_Z b) frameDur) (mul (of_Z a) frameDur)) cm in
  exists sp', Forall2 (note_run log2 frameDur f0Med) notes' sp' /\ sequential 0 b sp'.
Proof.
  intros Hsp Hseq Hab Hrun. unfold close_note, push.
  destruct (ge _ c0_08).
  - exists (sp ++ [(a, b)]). split.
    + apply Forall2_app; [exact Hsp |]. constructor; [| constructor].
      split; [split; reflexivity | exact Hrun].
    + apply sequential_snoc; [exact Hseq | lia].
  - exists sp. split; [exact Hsp |].
    eapply sequential_weaken; [exact Hseq | lia].
Qed.

Lemma extractor_step_runs (i : Z) (hz : number) (st : seg_state) :
  0 <= i -> f0Med !! Z.to_nat i = Some hz ->
  runs_ok log2 frameDur f0Med i st ->
  runs_ok log2 frameDur f0Med (i + 1) (extractor_step log2 randomUUID frameDur i hz st).
Proof.
  destruct st as [[notes curStart] curMidi]. intros Hi Hhz (sp & Hsp & Hcur).
  unfold extractor_step.
  destruct (hzToMidiNumber log2 hz) as [m |] eqn:Hm; destruct curMidi as [cm |].
  - destruct Hcur as (a & Ha & -> & Hseq & Hrun).
    destruct (gt _ zero) eqn:Hgt.
    + destruct (close_note_runs notes sp a i cm Hsp Hseq ltac:(lia) Hrun) as (sp' & Hsp' & Hseq').
      exists sp'. split; [exact Hsp' |].
      exists i. repeat split; try lia; try assumption.
      * destruct (run_of_open i hz m Hhz Hm) as [H _]. exact H.
      * destruct (run_of_open i hz m Hhz Hm) as [_ H]. exact H.
    + exists sp. split; [exact Hsp |].
      exists a. repeat split; try lia; try assumption.
      * destruct Hrun as [H _]. exact H.
      * destruct (run_of_extend a i hz m cm Hhz Hm Hgt Hrun) as [_ H]. exact H.
  - exists sp. split; [exact Hsp |].
    exists i. repeat split; try lia; try assumption.
    + destruct (run_of_open i hz m Hhz Hm) as [H _]. exact H.
    + destruct (run_of_open i hz m Hhz Hm) as [_ H]. exact H.
  - destruct Hcur as (a & Ha & -> & Hseq & Hrun).
    destruct (close_note_runs notes sp a i cm Hsp Hseq ltac:(lia) Hrun) as (sp' & Hsp' & Hseq').
    exists sp'. split; [exact Hsp' |].
    eapply sequential_weaken; [exact Hseq' | lia].
  - exists sp. split; [exact Hsp |].
    eapply sequential_weaken; [exact Hcur | lia].
Qed.

Lemma extractor_loop_runs (rest : list number) : forall i st,
  0 <= i -> drop (Z.to_nat i) f0Med = rest ->
  runs_ok log2 frameDur f0Med i st ->
  runs_ok log2 frameDur f0Med (i + Z.of_nat (length rest))
          (extractor_loop log2 randomUUID frameDur rest i st).
Proof.
  induction rest as [| hz rest IH]; intros i st Hi Hdrop H; simpl extractor_loop.
  - simpl length. now rewrite Z.add_0_r.
  - replace (i + Z.of_nat (length (hz :: rest))) with (i + 1 + Z.of_nat (length rest))
      by (simpl length; lia).
    assert (Hhz : f0Med !! Z.to_nat i = Some hz).
    { rewrite <- (Nat.add_0_r (Z.to_nat i)), <- lookup_drop, Hdrop. reflexivity. }
    apply IH; [lia | | now apply extractor_step_runs].
    replace (Z.to_nat (i + 1)) with (Z.to_nat i + 1)%nat by lia.
    rewrite <- drop_drop, Hdrop. reflexivity.
Qed.

Lemma extractor_segment_runs (sr : number) :
  frameDur = div (of_Z HOP_SIZE) sr ->
  exists sp,
    Forall2 (note_run log2 frameDur f0Med) (extractor_segment log2 randomUUID sr f0Med) sp /\
    sequential 0 (Z.of_nat (length f0Med)) sp.
Proof.
  intros Hfd. unfold extractor_segment. rewrite <- Hfd.
  pose proof (extractor_loop_runs f0Med 0 ([], zero, None) ltac:(lia) eq_refl) as H.
  destruct (extractor_loop _ _ _ _ _ _) as [[notes curStart] curMidi].
  destruct H as (sp & Hsp & Hcur).
  { exists []. split; [constructor | simpl; lia]. }
  rewrite Z.add_0_l in Hcur. destruct curMidi as [cm |].
  - destruct Hcur as (a & Ha & -> & Hseq & Hrun).
    exact (close_note_runs notes sp a _ cm Hsp Hseq Ha Hrun).
  - exists sp. split; assumption.
Qed.

End RunFacts.

Lemma note_run_fields {Id1 Id2 : Type} (log2 : number -> number) (frameDur : number)
    (f0Med : list number) (notes1 : list (Note Id1)) (notes2 : list (Note Id2))
    (sp : list (Z * Z)) :
  map fields notes1 = map fields notes2 ->
  Forall2 (note_run log2 frameDur f0Med) notes1 sp ->
  Forall2 (note_run log2 frameDur f0Med) notes2 sp.
Proof.
  revert notes2 sp.
  induction notes1 as [| n1 notes1 IH]; intros [| n2 notes2] sp Hf Hsp;
    try discriminate.
  - inversion Hsp; subst. constructor.
  - simpl in Hf. injection Hf as Hs Hdur Hmidi Hrest.
    inversion Hsp as [| ? ab ? sp' Hab Hsp']; subst.
    constructor; [| now apply IH].
    destruct Hab as [Hspan Hrun]. split.
    + unfold spans in *. now rewrite <- Hs, <- Hdur.
    + now rewrite <- Hmidi.
Qed.

(** X13: each note of a segmentation stands for a run of frames of one pitch:
    its frame range starts at a voiced frame whose quantised pitch is the
    note's [midi], and every frame of the range is voiced and passes for the
    same pitch; the ranges follow one another within the track.  This holds
    for both components. *)
Theorem notes_are_runs {Id : Type} (log2 : number -> number) (randomUUID : nat -> Id)
    (sr : number) (f0Med : list number) :
  (exists sp,
     Forall2 (note_run log2 (div (of_Z HOP_SIZE) sr) f0Med)
             (extractor_segment log2 randomUUID sr f0Med) sp /\
     sequential 0 (Z.of_nat (length f0Med)) sp) /\
  (exists sp,
     Forall2 (note_run log2 (div (of_Z HOP_SIZE) sr) f0Med)
             (generator_segment log2 randomUUID sr f0Med) sp /\
     sequential 0 (Z.of_nat (length f0Med)) sp).
Proof.
  destruct (extractor_segment_runs log2 randomUUID (div (of_Z HOP_SIZE) sr) f0Med sr eq_refl)
    as (sp & Hsp & Hseq).
  split; exists sp; (split; [| exact Hseq]); [exact Hsp |].
  exact (note_run_fields log2 _ f0Med _ _ sp
           (segment_fields log2 randomUUID randomUUID sr f0Med) Hsp).
Qed.

Import MusicNum.

(** ** Note names *)

Lemma name_index_mod (m : Z) : name_index m = m mod 12.
Proof.
  unfold name_index. Z.to_euclidean_division_equations. lia.
Qed.

Lemma name_at_some (table : list string) (i : Z) :
  0 <= i < Z.of_nat (length table) ->
  table !! Z.to_nat i = Some (name_at table i).
Proof.
  intros Hi. unfold name_at.
  replace (i <? 0) with false by (symmetry; apply Z.ltb_ge; lia).
  destruct (table !! Z.to_nat i) as [s |] eqn:Hs; [reflexivity |].
  apply lookup_ge_None in Hs. lia.
Qed.

Lemma name_index_range (m : Z) : 0 <= name_index m < 12.
Proof. rewrite name_index_mod. apply Z.mod_pos_bound. lia. Qed.

(** X14: when [midi] rounds to an integer [m] below 2^53 in magnitude,
    negative or not, both naming functions pick entry [m mod 12] of their
    tables, never a missing one, and the note name ends with the octave
    [m / 12 - 1], rounded down. *)
Theorem note_name_of_rounded (midi : number) (m : Z) :
  to_integral (round midi) = IInt m ->
  Z.abs m < 2 ^ 53 ->
  exists name syllable,
    names !! Z.to_nat (m mod 12) = Some name /\
    solfeggio !! Z.to_nat (m mod 12) = Some syllable /\
    midiToNoteName midi = name +:+ pretty (m / 12 - 1) /\
    midiToSolfeggio midi = Some syllable.
Proof.
  intros Hm _. unfold midiToNoteName, midiToSolfeggio. rewrite Hm.
  pose proof (name_index_range m) as Hr.
  exists (name_at names (name_index m)), (name_at solfeggio (name_index m)).
  rewrite <- name_index_mod.
  repeat apply conj; try reflexivity; apply name_at_some; simpl; lia.
Qed.

Lemma note_name_of_rounded_witness :
  exists name syllable,
    names !! Z.to_nat (-3 mod 12) = Some name /\
    solfeggio !! Z.to_nat (-3 mod 12) = Some syllable /\
    midiToNoteName (ratio (-7) 2) = name +:+ pretty (-3 / 12 - 1) /\
    midiToSolfeggio (ratio (-7) 2) = Some syllable.
Proof.
  apply (note_name_of_rounded (ratio (-7) 2) (-3)); [computed | vm_compute; reflexivity].
Defined.

(** X15: twelve semitones up, the names are the same and the octave is one
    higher. *)
Theorem note_name_octave_up (midi midi' : number) (m : Z) :
  to_integral (round midi) = IInt m ->
  to_integral (round midi') = IInt (m + 12) ->
  midiToSolfeggio midi' = midiToSolfeggio midi /\
  exists name,
    midiToNoteName midi = name +:+ pretty (m / 12 - 1) /\
    midiToNoteName midi' = name +:+ pretty (m / 12).
Proof.
  intros Hm Hm'. unfold midiToNoteName, midiToSolfeggio. rewrite Hm, Hm'.
  assert (Hi : name_index (m + 12) = name_index m).
  { rewrite !name_index_mod. Z.to_euclidean_division_equations. lia. }
  assert (Ho : octave_of (m + 12) = m / 12).
  { unfold octave_of. Z.to_euclidean_division_equations. lia. }
  rewrite Hi, Ho. split; [reflexivity |].
  exists (name_at names (name_index m)). split; reflexivity.
Qed.

Lemma note_name_octave_up_witness :
  midiToSolfeggio (of_Z 72) = midiToSolfeggio (of_Z 60) /\
  exists name,
    midiToNoteName (of_Z 60) = name +:+ pretty (60 / 12 - 1) /\
    midiToNoteName (of_Z 72) = name +:+ pretty (60 / 12).
Proof.
  apply (note_name_octave_up (of_Z 60) (of_Z 72) 60); computed.
Defined.

(** ** The two conversions to a pitch *)

Lemma lt_zero_cases (hz : number) :
  lt zero hz = negb (falsy hz || le hz zero).
Proof.
  destruct hz as [s | s | | s m e]; try reflexivity; destruct s; reflexivity.
Qed.

(** X16: [hzToMidi] gives no pitch exactly for the frequencies that are not
    above zero, NaN among them; it agrees with the conversion of the
    segmentation exactly on the frequencies that are finite and positive or
    neither: zero and the negative numbers get a pitch there and none here,
    +Infinity the other way round. *)
Theorem hzToMidi_absent_iff (log2 : number -> number) (hz : number) :
  (hzToMidi log2 hz = None <-> lt zero hz = false) /\
  (hzToMidi log2 hz = hzToMidiNumber log2 hz <-> isFinite hz = lt zero hz).
Proof.
  unfold hzToMidi, hzToMidiNumber. rewrite lt_zero_cases.
  destruct (falsy hz || le hz zero), (isFinite hz); simpl; split; split;
    try reflexivity; try discriminate; intros H; try discriminate H; reflexivity.
Qed.

Import App.

(** ** The live history *)

Lemma sub_self_finite (x : number) :
  isFinite x = true -> is_zero (sub x x) = true.
Proof.
  intros Hx. destruct (sub_self x) as [H | H]; [exact H |].
  destruct x as [s | s | | s m e]; try discriminate; exfalso.
  - destruct s; discriminate H.
  - unfold sub, SFsub in H. rewrite Z.sub_diag in H. discriminate H.
Qed.

Lemma sub_self_not_finite (x : number) :
  isFinite x = false -> sub x x = NaN.
Proof. destruct x as [s | [] | | s m e]; try discriminate; reflexivity. Qed.

Lemma le_zero_30 (z : number) : is_zero z = true -> le z (of_Z 30) = true.
Proof. destruct z as [s | | |]; try discriminate. destruct s; reflexivity. Qed.

(** X17: the history after a point [p] was passed on holds, in their order, the
    earlier points and [p] for which [p.tSec - x.tSec <= 30]; it ends with
    [p] when [p.tSec] is finite, and does not hold [p] when it is not; when
    [p.tSec] is NaN the history is emptied. *)
Theorem live_history_window (pts : list PitchPoint) (p : PitchPoint) :
  let live := live_after (pts ++ [p]) in
  sublist live (live_after pts ++ [p]) /\
  Forall (fun x => le (sub (tSec p) (tSec x)) (of_Z 30) = true) live /\
  (if isFinite (tSec p) then last live = Some p else ~ In p live) /\
  (tSec p = NaN -> live = []).
Proof.
  unfold live_after. rewrite foldl_app. simpl foldl.
  set (prev := foldl keep_live [] pts). unfold keep_live.
  repeat apply conj.
  - clear. induction (prev ++ [p]) as [| x l IH]; simpl; [constructor |].
    destruct (le _ _); [now apply sublist_skip | now apply sublist_cons].
  - apply List.Forall_forall. intros x Hx. apply filter_In in Hx. tauto.
  - destruct (isFinite (tSec p)) eqn:Hfin.
    + rewrite List.filter_app. cbn [List.filter].
      rewrite (le_zero_30 _ (sub_self_finite _ Hfin)). apply last_snoc.
    + intros Hin. apply filter_In in Hin as [_ Hle].
      rewrite (sub_self_not_finite _ Hfin) in Hle. discriminate Hle.
  - intros Hnan. rewrite Hnan.
    induction (prev ++ [p]) as [| x l IH]; simpl; [reflexivity |].
    destruct (tSec x); exact IH.
Qed.

(** ** The window of a part *)

Import Segment Math.

Lemma lt_le (x y : number) : lt x y = true -> le x y = true.
Proof.
  unfold lt, le, SFltb, SFleb. destruct (SFcompare x y) as [[] |]; congruence.
Qed.

Lemma max_nan (x y : number) : isNaN (max x y) = isNaN x || isNaN y.
Proof.
  unfold max. destruct (isNaN x) eqn:Hx; [reflexivity |].
  destruct (isNaN y) eqn:Hy; [reflexivity |]. simpl.
  destruct (lt x y); [exact Hy |]. destruct (lt y x); [exact Hx |].
  destruct (sign_bit x); assumption.
Qed.

Lemma maxT_nan {Id : Type} (data : list (Note Id)) : forall init,
  isNaN (foldl (fun m n => max m (add (start n) (duration n))) init data) =
  isNaN init || existsb (fun n => isNaN (add (start n) (duration n))) data.
Proof.
  induction data as [| n data IH]; intros init; simpl.
  - now rewrite orb_false_r.
  - rewrite IH, max_nan. now rewrite orb_assoc.
Qed.

Lemma compare_some (x y : number) :
  isNaN x = false -> isNaN y = false -> exists c, SFcompare x y = Some c.
Proof.
  destruct x as [sx | sx | | sx mx ex], y as [sy | sy | | sy my ey];
    try discriminate; intros _ _; simpl; eauto;
    try (destruct sx; eauto; fail); try (destruct sy; eauto; fail);
    try (destruct sx, sy; eauto; fail);
    destruct sx, sy; eauto; destruct (ex ?= ey); eauto.
Qed.

Lemma not_lt_le (x y : number) :
  isNaN x = false -> isNaN y = false -> lt x y = false -> le y x = true.
Proof.
  intros Hx Hy. unfold lt, le, SFltb, SFleb. rewrite (compare_antisym x y).
  destruct (compare_some x y Hx Hy) as [c ->]. destruct c; simpl; congruence.
Qed.

Lemma min_30_bound (t : number) :
  isNaN t = false ->
  isNaN (min (of_Z 30) t) = false /\ le (min (of_Z 30) t) (of_Z 30) = true.
Proof.
  intros Ht. unfold min. rewrite Ht.
  assert (H30 : isNaN (of_Z 30) = false) by computed.
  assert (Hle : le (of_Z 30) (of_Z 30) = true) by computed.
  assert (Hs : sign_bit (of_Z 30) = false) by computed.
  rewrite H30, Hs. simpl orb. cbv iota.
  destruct (lt (of_Z 30) t) eqn:Hgt; [now split |].
  destruct (lt t (of_Z 30)) eqn:Hlt; [split; [exact Ht | now apply lt_le] |].
  split; [exact Ht |]. now apply not_lt_le.
Qed.

Lemma max_10_bound (r : number) :
  isNaN r = false -> le r (of_Z 30) = true ->
  le (of_Z 10) (max (of_Z 10) r) = true /\ le (max (of_Z 10) r) (of_Z 30) = true.
Proof.
  intros Hr Hle. unfold max. rewrite Hr.
  assert (H10 : isNaN (of_Z 10) = false) by computed.
  assert (Hle10 : le (of_Z 10) (of_Z 10) = true) by computed.
  assert (Hle30 : le (of_Z 10) (of_Z 30) = true) by computed.
  assert (Hs : sign_bit (of_Z 10) = false) by computed.
  rewrite H10, Hs. simpl orb. cbv iota.
  destruct (lt (of_Z 10) r) eqn:Hlt; [split; [now apply lt_le | exact Hle] |].
  destruct (lt r (of_Z 10)); now split.
Qed.

(** X18: the window [loadPart] sets starts at 0; its end is NaN when the end
    [start + duration] of some note is NaN (a note without a number in one
    of the two fields), and lies between 10 and 30 otherwise, also when the
    part has no note. *)
Theorem loadPart_window_end {Id : Type} (data : list (Note Id)) :
  fst (loadPart_window data) = zero /\
  if existsb (fun n => isNaN (add (start n) (duration n))) data
  then snd (loadPart_window data) = NaN
  else le (of_Z 10) (snd (loadPart_window data)) = true /\
       le (snd (loadPart_window data)) (of_Z 30) = true.
Proof.
  split; [reflexivity |]. unfold loadPart_window, snd.
  pose proof (maxT_nan data (of_Z 10)) as Hn. fold (maxT data) in Hn.
  assert (H10 : isNaN (of_Z 10) = false) by computed.
  rewrite H10 in Hn. simpl orb in Hn.
  destruct (existsb _ data).
  - destruct (maxT data); try discriminate Hn.
    unfold max, min. now rewrite orb_true_r.
  - destruct (min_30_bound (maxT data) Hn) as [Hr Hle].
    now apply max_10_bound.
Qed.
